(** * qa-web-crawler: the boilerplate cleaner and the crawl frontier

    A shallow embedding of [src/crawler.py]: the class [HTMLPatternCleaner]
    (with the part of [difflib.SequenceMatcher] it calls) and the loop of
    [crawl_website], followed by the properties of the specification. *)

From stdpp Require Import gmap strings list sorting.

(** ** Python values

    A Python [str] is a sequence of Unicode code points; a code point is a
    natural number.  [py] reads a literal. *)

Abbreviation char := N (only parsing).
Abbreviation str := (list N) (only parsing).

Definition py (s : string) : str :=
  map Ascii.N_of_ascii (String.list_ascii_of_string s).

Definition hash : char := 35%N.

(** [len(s)] as a Python int. *)
Definition len {A} (l : list A) : Z := Z.of_nat (length l).

(** [s.startswith(p)] *)
Fixpoint startswith (s p : str) : bool :=
  match p, s with
  | [], _ => true
  | _ :: _, [] => false
  | x :: p', y :: s' => (x =? y)%N && startswith s' p'
  end.

(** [sub in s] on strings: [sub] occurs at some position of [s]. *)
Fixpoint str_in (sub s : str) : bool :=
  startswith s sub ||
  match s with
  | [] => false
  | _ :: s' => str_in sub s'
  end.

(** [s[lo:hi]] for [0 <= lo <= hi]; a slice is clamped to the string. *)
Definition slice (s : str) (lo hi : nat) : str := take (hi - lo) (drop lo s).

(** [s.replace(old, new)]: the occurrences of [old] are found from left to
    right and do not overlap.  [skip] counts the characters of an occurrence
    that are still to be passed over. *)
Fixpoint replace_from (old new s : str) (skip : nat) : str :=
  match s with
  | [] => []
  | c :: s' =>
      match skip with
      | S k => replace_from old new s' k
      | O =>
          if startswith s old
          then new ++ replace_from old new s' (length old - 1)
          else c :: replace_from old new s' 0
      end
  end.

Definition str_replace (s old new : str) : str :=
  match old with
  | [] => new ++ flat_map (λ c, c :: new) s
  | _ :: _ => replace_from old new s 0
  end.

(** [str.isspace] on one code point (CPython's [Py_UNICODE_ISSPACE]). *)
Definition isspace (c : char) : bool :=
  ((9 <=? c) && (c <=? 13) || (28 <=? c) && (c <=? 32)
   || (c =? 133) || (c =? 160) || (c =? 5760)
   || (8192 <=? c) && (c <=? 8202)
   || (c =? 8232) || (c =? 8233) || (c =? 8239) || (c =? 8287)
   || (c =? 12288))%N.

Fixpoint lstrip (s : str) : str :=
  match s with
  | [] => []
  | c :: s' => if isspace c then lstrip s' else s
  end.

Definition rstrip (s : str) : str := reverse (lstrip (reverse s)).

(** [s.strip()] *)
Definition strip (s : str) : str := rstrip (lstrip s).

(** ** difflib.SequenceMatcher

    [find_longest_common_substring] builds [SequenceMatcher(None, str1, str2)]
    (so [isjunk] is [None] and [autojunk] keeps its default [True]) and calls
    [find_longest_match(0, len(str1), 0, len(str2))].  The definitions below
    follow CPython's [difflib] for that call. *)
Module difflib.

(** [__chain_b]: [b2j] maps each element of [b] to the increasing list of
    its positions; with [isjunk = None] no element is junk; when [b] has at
    least 200 elements, those occurring more than [n // 100 + 1] times are
    "popular" and are deleted from [b2j]. *)
Definition index_b (b : str) : gmap N (list nat) :=
  fold_left
    (λ (b2j : gmap N (list nat)) '(i, elt),
       <[elt := default [] (b2j !! elt) ++ [i]]> b2j)
    (imap pair b) ∅.

Definition bjunk : gset N := ∅.

Definition isbjunk (elt : char) : bool := bool_decide (elt ∈ bjunk).

Definition chain_b (b : str) : gmap N (list nat) :=
  let b2j := index_b b in
  let n := length b in
  if bool_decide (200 ≤ n) then
    let ntest := n `div` 100 + 1 in
    filter (λ '(_, idxs), ¬ ntest < length idxs) b2j
  else b2j.

Record Match := mkMatch { a : nat; b : nat; size : nat }.

(** [j2len.get(j - 1, 0)]: no key is negative, so the lookup at [-1]
    gives the default. *)
Definition j2lenget (j2len : gmap nat nat) (j : nat) : nat :=
  match j with
  | O => 0
  | S j' => default 0 (j2len !! j')
  end.

(** The loop [for j in b2j.get(a[i], nothing)], carrying [newj2len] and
    [besti, bestj, bestsize]. *)
Fixpoint match_row (blo bhi i : nat) (j2len : gmap nat nat) (js : list nat)
    (newj2len : gmap nat nat) (best : Match) : gmap nat nat * Match :=
  match js with
  | [] => (newj2len, best)
  | j :: js' =>
      if bool_decide (j < blo) then
        match_row blo bhi i j2len js' newj2len best
      else if bool_decide (bhi ≤ j) then (newj2len, best)
      else
        let k := j2lenget j2len j + 1 in
        match_row blo bhi i j2len js' (<[j := k]> newj2len)
          (if bool_decide (size best < k)
           then mkMatch (i + 1 - k) (j + 1 - k) k else best)
  end.

(** The loop [for i in range(alo, ahi)] for [alo = 0] and [ahi = len(a)]:
    [xs] is what is left of [a] from position [i] on. *)
Fixpoint match_rows (b2j : gmap N (list nat)) (blo bhi : nat) (xs : str)
    (i : nat) (j2len : gmap nat nat) (best : Match) : Match :=
  match xs with
  | [] => best
  | x :: xs' =>
      let '(newj2len, best') :=
        match_row blo bhi i j2len (default [] (b2j !! x)) ∅ best in
      match_rows b2j blo bhi xs' (S i) newj2len best'
  end.

(** [while besti > alo and bestj > blo and (not) isbjunk(b[bestj-1]) and
    a[besti-1] == b[bestj-1]], for [alo = blo = 0].  [junk] tells whether
    the element has to be junk (second pair of loops) or not (first). *)
Fixpoint extend_left (sa sb : str) (junk : bool) (besti bestj bestsize : nat)
    : Match :=
  match besti, bestj with
  | S i', S j' =>
      match sa !! i', sb !! j' with
      | Some x, Some y =>
          if eqb (isbjunk y) junk && (x =? y)%N
          then extend_left sa sb junk i' j' (S bestsize)
          else mkMatch besti bestj bestsize
      | _, _ => mkMatch besti bestj bestsize
      end
  | _, _ => mkMatch besti bestj bestsize
  end.

(** [while besti+bestsize < ahi and bestj+bestsize < bhi and (not)
    isbjunk(b[bestj+bestsize]) and a[besti+bestsize] == b[bestj+bestsize]],
    for [ahi = len(a)] and [bhi = len(b)]: [xs] and [ys] are [a] and [b]
    from those two positions on. *)
Fixpoint extend_right (junk : bool) (xs ys : str) (bestsize : nat) : nat :=
  match xs, ys with
  | x :: xs', y :: ys' =>
      if eqb (isbjunk y) junk && (x =? y)%N
      then extend_right junk xs' ys' (S bestsize)
      else bestsize
  | _, _ => bestsize
  end.

Definition extend (sa sb : str) (junk : bool) (m : Match) : Match :=
  let m1 := extend_left sa sb junk (a m) (b m) (size m) in
  mkMatch (a m1) (b m1)
    (extend_right junk (drop (a m1 + size m1) sa) (drop (b m1 + size m1) sb)
       (size m1)).

(** [SequenceMatcher(None, a, b).find_longest_match(0, len(a), 0, len(b))] *)
Definition find_longest_match (sa sb : str) : Match :=
  let b2j := chain_b sb in
  let m := match_rows b2j 0 (length sb) sa 0 ∅ (mkMatch 0 0 0) in
  extend sa sb true (extend sa sb false m).

End difflib.

(** ** HTMLPatternCleaner *)

(** [common_patterns]: a list of tuples [(-length, pattern)]. *)
Abbreviation store := (list (Z * list N)) (only parsing).

Definition find_longest_common_substring (str1 str2 : str) : str :=
  let m := difflib.find_longest_match str1 str2 in
  slice str1 (difflib.a m) (difflib.a m + difflib.size m).

(** The [for _, pattern in self.common_patterns] loop of one iteration. *)
Definition longest_of (patterns : store) (cleaned_content : str) : str :=
  fold_left
    (λ (longest_common : str) '(_, pattern),
       let common := find_longest_common_substring pattern cleaned_content in
       if bool_decide (len longest_common < len common)%Z
       then common else longest_common)
    patterns [].

(** The [while iterations < 5] loop; [fuel] is [5 - iterations]. *)
Fixpoint strip_loop (fuel : nat) (max_patterns : Z) (patterns : store)
    (cleaned_content : str) : str * store :=
  match fuel with
  | O => (cleaned_content, patterns)
  | S fuel' =>
      let longest_common := longest_of patterns cleaned_content in
      if bool_decide (len longest_common < 250)%Z then
        (cleaned_content, patterns)
      else
        let cleaned_content' := str_replace cleaned_content longest_common [] in
        let patterns' :=
          if bool_decide (len patterns < max_patterns)%Z
          then patterns ++ [(- len longest_common, longest_common)%Z]
          else patterns in
        strip_loop fuel' max_patterns patterns' cleaned_content'
  end.

(** [clean_content]: the returned string and the store after the call. *)
Definition clean_content (max_patterns : Z) (patterns : store) (content : str)
    : str * store :=
  match patterns with
  | [] => (content, [(- len content, content)%Z])
  | _ :: _ =>
      let '(cleaned_content, patterns') :=
        strip_loop 5 max_patterns patterns content in
      (strip cleaned_content, patterns')
  end.

(** The store after [clean_content] has been called on each page in turn,
    starting from the empty store that [__init__] creates. *)
Definition cleaner_run (max_patterns : Z) (pages : list str) : store :=
  fold_left (λ patterns content, (clean_content max_patterns patterns content).2)
    pages [].

(** ** crawl_website *)

(** [cleaner = HTMLPatternCleaner(max_patterns=5)] *)
Definition cleaner_max_patterns : Z := 5.

Record PageRecord := mkPageRecord { url : str; title : str; content : str }.

(** What [requests.get(current_url, timeout=5)] gives: it raises a
    [RequestException] (timeout, connection failure, ...), or it returns a
    response with a status code and a body.  The body is given by what the
    parser extracts from it: the title, the whitespace-normalised text and,
    for each anchor with an [href], the URL [urljoin(base_url, href)].  An
    exception of another class is not caught by the loop and ends the crawl;
    a run is followed up to such a pass. *)
Inductive response :=
  | RequestException
  | Response (status_code : Z) (page_title html_content : str)
      (new_urls : list str).

(** [response.raise_for_status()] raises an [HTTPError], which is a
    [RequestException], for the status codes from 400 to 599. *)
Definition raise_for_status (status_code : Z) : bool :=
  bool_decide (400 ≤ status_code < 600)%Z.

(** The [try] block is left through [except requests.RequestException]. *)
Definition fetch_fails (r : response) : bool :=
  match r with
  | RequestException => true
  | Response status_code _ _ _ => raise_for_status status_code
  end.

(** The local variables of [crawl_website], the patterns of the module-level
    [cleaner], and [requests]: the URLs that were passed to [requests.get],
    in the order of the calls. *)
Record crawl_state := mkState {
  visited : gset (list N);
  urls_to_crawl : list str;
  results : list PageRecord;
  common_patterns : store;
  requests : list str
}.

Definition initial (base_url : str) (patterns : store) : crawl_state :=
  mkState ∅ [base_url] [] patterns [].

(** The loop [for link in soup.find_all('a', href=True)]. *)
Fixpoint enqueue_links (base_url : str) (visited : gset (list N))
    (exclusion_list : list str) (new_urls : list str)
    (urls_to_crawl : list str) : list str :=
  match new_urls with
  | [] => urls_to_crawl
  | new_url :: rest =>
      if negb (startswith new_url base_url)
         || bool_decide (new_url ∈ visited)
         || str_in [hash] new_url
         || existsb (λ exclusion, str_in exclusion new_url) exclusion_list
      then enqueue_links base_url visited exclusion_list rest urls_to_crawl
      else enqueue_links base_url visited exclusion_list rest
             (urls_to_crawl ++ [new_url])
  end.

(** One pass through the body of [while urls_to_crawl]; [None] when the
    queue is empty and the loop ends.  [r] is what the network answers if
    this pass fetches. *)
Definition crawl_iteration (base_url : str) (exclusion_list : list str)
    (r : response) (s : crawl_state) : option crawl_state :=
  match urls_to_crawl s with
  | [] => None
  | current_url :: rest =>
      if bool_decide (current_url ∈ visited s) || str_in [hash] current_url
      then Some (mkState (visited s) rest (results s) (common_patterns s)
                   (requests s))
      else
        let visited' := visited s ∪ {[current_url]} in
        let requests' := requests s ++ [current_url] in
        let failed :=
          mkState visited' rest (results s) (common_patterns s) requests' in
        match r with
        | RequestException => Some failed
        | Response status_code page_title html_content new_urls =>
            if raise_for_status status_code then Some failed
            else
              let '(cleaned_html, patterns') :=
                clean_content cleaner_max_patterns (common_patterns s)
                  html_content in
              Some (mkState visited'
                      (enqueue_links base_url visited' exclusion_list new_urls
                         rest)
                      (results s
                         ++ [mkPageRecord current_url page_title cleaned_html])
                      patterns' requests')
        end
  end.

(** The passes of the loop against the answers [rs] of the network, one
    answer for each pass. *)
Fixpoint crawl_run (base_url : str) (exclusion_list : list str)
    (rs : list response) (s : crawl_state) : crawl_state :=
  match rs with
  | [] => s
  | r :: rs' =>
      match crawl_iteration base_url exclusion_list r s with
      | Some s' => crawl_run base_url exclusion_list rs' s'
      | None => s
      end
  end.

(** [crawl_website] against a network that answers each URL by [fetch]:
    the results, when the queue empties within [fuel] passes. *)
Fixpoint crawl_loop (base_url : str) (exclusion_list : list str)
    (fetch : str → response) (fuel : nat) (s : crawl_state)
    : option (list PageRecord) :=
  match urls_to_crawl s with
  | [] => Some (results s)
  | current_url :: _ =>
      match fuel with
      | O => None
      | S fuel' =>
          match crawl_iteration base_url exclusion_list (fetch current_url) s with
          | Some s' => crawl_loop base_url exclusion_list fetch fuel' s'
          | None => Some (results s)
          end
      end
  end.

Definition crawl_website (base_url : str) (exclusion_list : list str)
    (patterns : store) (fetch : str → response) (fuel : nat)
    : option (list PageRecord) :=
  crawl_loop base_url exclusion_list fetch fuel (initial base_url patterns).

(** ** Exceptions that the loop does not catch

    The [except] clause of the loop catches [requests.RequestException]
    only.  An exception of another class raised inside the [try] (the
    [AttributeError] of [soup.title.string.strip()] when the title element
    has no string, a [ValueError] of [urljoin]) leaves [crawl_website]: the
    call raises and returns no rows. *)

(** What fetching and parsing one URL comes to: an answer that the loop
    handles, or an exception that it does not catch. *)
Inductive fetched :=
  | Handled (r : response)
  | Uncaught.

Inductive pass_outcome :=
  | Next (s' : crawl_state)
  | Done
  | Raised.

(** One pass through the body of the loop, with its three ways out: the loop
    goes on, the queue is empty, or the pass raises. *)
Definition crawl_pass (base_url : str) (exclusion_list : list str)
    (f : fetched) (s : crawl_state) : pass_outcome :=
  match urls_to_crawl s with
  | [] => Done
  | current_url :: rest =>
      if bool_decide (current_url ∈ visited s) || str_in [hash] current_url
      then Next (mkState (visited s) rest (results s) (common_patterns s)
                   (requests s))
      else
        match f with
        | Uncaught => Raised
        | Handled r =>
            match crawl_iteration base_url exclusion_list r s with
            | Some s' => Next s'
            | None => Done
            end
        end
  end.

Inductive crawl_outcome :=
  | Returns (rows : list PageRecord)
  | Raises
  | OutOfFuel.

Fixpoint crawl_loop_exc (base_url : str) (exclusion_list : list str)
    (fetch : str → fetched) (fuel : nat) (s : crawl_state) : crawl_outcome :=
  match urls_to_crawl s with
  | [] => Returns (results s)
  | current_url :: _ =>
      match fuel with
      | O => OutOfFuel
      | S fuel' =>
          match crawl_pass base_url exclusion_list (fetch current_url) s with
          | Next s' => crawl_loop_exc base_url exclusion_list fetch fuel' s'
          | Done => Returns (results s)
          | Raised => Raises
          end
      end
  end.

(** [crawl_website], with the exceptions that leave it. *)
Definition crawl_website_exc (base_url : str) (exclusion_list : list str)
    (patterns : store) (fetch : str → fetched) (fuel : nat) : crawl_outcome :=
  crawl_loop_exc base_url exclusion_list fetch fuel (initial base_url patterns).

(** ** The main program *)

Definition comma : char := 44%N.

(** [s.split(sep)] for a separator of one character: the first field and the
    fields after it. *)
Fixpoint split_fields (sep : char) (s : str) : str * list str :=
  match s with
  | [] => ([], [])
  | c :: s' =>
      let '(field, fields) := split_fields sep s' in
      if (c =? sep)%N then ([], field :: fields) else (c :: field, fields)
  end.

Definition str_split (s : str) (sep : char) : list str :=
  let '(field, fields) := split_fields sep s in field :: fields.

(** [[s.strip() for s in args.exclusion_list.split(",") if s.strip()]] *)
Definition parse_exclusion_list (arg : str) : list str :=
  map strip (filter (λ s : list N, strip s ≠ []) (str_split arg comma)).

(** The default of [--exclusion_list]. *)
Definition default_exclusion_list : str := py ".pdf,.jpg,.docx".

(** The rows that the main program writes: the crawl from [--base_url] with
    the parsed exclusion list, the cleaner being fresh. *)
Definition main (base_url exclusion_arg : str) (fetch : str → response)
    (fuel : nat) : option (list PageRecord) :=
  crawl_website base_url (parse_exclusion_list exclusion_arg) [] fetch fuel.

(** ** Specification vocabulary *)

(** [sub] occurs in [s] as one contiguous run. *)
Definition substring_of (sub s : str) : Prop :=
  ∃ pre post, s = pre ++ sub ++ post.

Definition longest_common_substring (m s1 s2 : str) : Prop :=
  substring_of m s1 ∧ substring_of m s2 ∧
  ∀ m', substring_of m' s1 → substring_of m' s2 → length m' ≤ length m.

(** [sep.join(pieces)] *)
Fixpoint join (sep : str) (pieces : list str) : str :=
  match pieces with
  | [] => []
  | [p] => p
  | p :: ps => p ++ sep ++ join sep ps
  end.

(** A candidate link passes admission. *)
Definition admissible (base_url : str) (visited : gset (list N))
    (exclusion_list : list str) (new_url : str) : Prop :=
  base_url `prefix_of` new_url ∧ (new_url ∉ visited) ∧ (hash ∉ new_url) ∧
  Forall (λ exclusion, ¬ substring_of exclusion new_url) exclusion_list.

(** The texts of the store are in descending order of length. *)
Definition descending_length (patterns : store) : Prop :=
  Sorted (λ p q : Z * list N, length q.2 ≤ length p.2) patterns.

(** The first pattern, the seed, is a longest one. *)
Definition seed_longest (patterns : store) : Prop :=
  match patterns with
  | [] => True
  | seed :: later => Forall (λ p, length p.2 ≤ length seed.2) later
  end.

(** The frontier invariant: [visited] holds exactly the URLs that were
    fetched, each was fetched once, and none contains [#]. *)
Definition frontier_inv (s : crawl_state) : Prop :=
  NoDup (requests s) ∧ Forall (λ u, hash ∉ u) (requests s) ∧
  ∀ u, u ∈ visited s ↔ u ∈ requests s.

(** The block [m] covers the same characters in [sa] and in [sb]. *)
Definition aligned (sa sb : str) (m : difflib.Match) : Prop :=
  ∀ t, t < difflib.size m →
    ∃ x, sa !! (difflib.a m + t) = Some x ∧ sb !! (difflib.b m + t) = Some x.

(** [j2len] when the pass for [a[i]] starts: [j2len[j] = k] stands for a
    common block of [k] characters that ends with [a[i-1]] and [b[j]]. *)
Definition row_ok (sa sb : str) (i : nat) (j2len : gmap nat nat) : Prop :=
  ∀ j k, j2len !! j = Some k →
    k ≤ i ∧ k ≤ S j ∧ aligned sa sb (difflib.mkMatch (i - k) (S j - k) k).

(** Every position listed in [b2j] holds the element it is listed under. *)
Definition index_ok (sb : str) (b2j : gmap N (list nat)) : Prop :=
  ∀ x js, b2j !! x = Some js → Forall (λ j, sb !! j = Some x) js.

(** [s] neither starts nor ends with a whitespace character. *)
Definition no_space_at_ends (s : str) : Prop :=
  (∀ c, head s = Some c → isspace c = false) ∧
  (∀ c, last s = Some c → isspace c = false).

(** A URL that the crawl may hold: it starts with the base URL and, unless
    it is the base URL itself, it passed the admission test for [#] and the
    exclusion list. *)
Definition in_scope (base_url : str) (exclusion_list : list str) (u : str)
    : Prop :=
  base_url `prefix_of` u ∧
  (u = base_url ∨
   (hash ∉ u) ∧ Forall (λ exclusion, ¬ substring_of exclusion u) exclusion_list).

(** The crawl stays in scope and records what it fetched, in order. *)
Definition crawl_inv (base_url : str) (exclusion_list : list str)
    (s : crawl_state) : Prop :=
  Forall (in_scope base_url exclusion_list) (urls_to_crawl s) ∧
  Forall (in_scope base_url exclusion_list) (requests s) ∧
  map url (results s) `sublist_of` requests s.

(** A bound on the passes that a crawl still makes, when the URLs that can
    be admitted all lie in the finite set [site] and no page has more than
    [width] links: one for each queued URL, and [width] for each URL of the
    site that is not visited yet. *)
Definition passes_left (site : gset (list N)) (width : nat) (s : crawl_state)
    : nat :=
  length (urls_to_crawl s) + width * size (site ∖ visited s).

(** [fetch] answers the URLs of [site] with pages of at most [width] links,
    whose admissible links lie in [site]. *)
Definition closed_site (base_url : str) (exclusion_list : list str)
    (fetch : str → response) (site : gset (list N)) (width : nat) : Prop :=
  ∀ u status_code page_title html_content new_urls,
    u ∈ site →
    fetch u = Response status_code page_title html_content new_urls →
    length new_urls ≤ width ∧
    ∀ v, v ∈ new_urls → admissible base_url ∅ exclusion_list v → v ∈ site.

(** [b2j] lists every position of every element of [sb]. *)
Definition index_full (sb : str) (b2j : gmap N (list nat)) : Prop :=
  ∀ j x, sb !! j = Some x → ∃ js, b2j !! x = Some js ∧ j ∈ js.

(** [j2len] when the pass for [a[i]] starts knows every common block that
    ends with [a[i-1]] and [b[j]]. *)
Definition row_full (sa sb : str) (i : nat) (j2len : gmap nat nat) : Prop :=
  ∀ j k, 1 ≤ k → k ≤ i → k ≤ S j →
    aligned sa sb (difflib.mkMatch (i - k) (S j - k) k) →
    ∃ k', j2len !! j = Some k' ∧ k ≤ k'.

(** [best] is as long as any common block within the first [i] characters
    of [sa]. *)
Definition best_upto (sa sb : str) (i : nat) (best : difflib.Match) : Prop :=
  ∀ m, aligned sa sb m → difflib.a m + difflib.size m ≤ i →
       difflib.size m ≤ difflib.size best.

(** No character of [sb] is left out of the matcher's index: [sb] has fewer
    than 200 characters, or none occurs more than [len(sb) // 100 + 1]
    times. *)
Definition no_popular (sb : str) : Prop :=
  length sb < 200 ∨
  ∀ x, length (filter (λ y, y = x) sb) ≤ length sb `div` 100 + 1.

(** A site of two pages: the home page links to [/b] twice, to a fragment, to
    another host and to a PDF; [/b] links back home.  Each page is fetched
    once, in the order of discovery. *)
Definition two_pages (current_url : str) : response :=
  if decide (current_url = py "http://ex.test/") then
    Response 200 (py "A") (py "page a")
      [py "http://ex.test/b"; py "http://ex.test/c#frag";
       py "http://other.test/x"; py "http://ex.test/a.pdf";
       py "http://ex.test/b"]
  else if decide (current_url = py "http://ex.test/b") then
    Response 200 (py "B") (py " page b ") [py "http://ex.test/"]
  else RequestException.

(** Every URL of [site] is fetched and parsed without an exception that the
    loop does not catch, into a page of at most [width] links whose
    admissible links lie in [site]. *)
Definition parsing_site (base_url : str) (exclusion_list : list str)
    (fetch : str → fetched) (site : gset (list N)) (width : nat) : Prop :=
  ∀ u, u ∈ site →
    ∃ r, fetch u = Handled r ∧
      ∀ status_code page_title html_content new_urls,
        r = Response status_code page_title html_content new_urls →
        length new_urls ≤ width ∧
        ∀ v, v ∈ new_urls → admissible base_url ∅ exclusion_list v → v ∈ site.

(** The site of two pages, the title element of [/b] having no string. *)
Definition two_pages_empty_title (current_url : str) : fetched :=
  if decide (current_url = py "http://ex.test/b") then Uncaught
  else Handled (two_pages current_url).

(** ** Examples *)

Example flcs_small :
  find_longest_common_substring (py "xxhello worldyy") (py "a hello world b")
  = py "hello world".
Proof. vm_compute. reflexivity. Qed.

Example crawl_two_pages :
  crawl_website (py "http://ex.test/") [py ".pdf"] [] two_pages 10
  = Some [mkPageRecord (py "http://ex.test/") (py "A") (py "page a");
          mkPageRecord (py "http://ex.test/b") (py "B") (py "page b")].
Proof. vm_compute. reflexivity. Qed.

Example crawl_raises_on_empty_title :
  crawl_website_exc (py "http://ex.test/") [py ".pdf"] []
    two_pages_empty_title 10 = Raises.
Proof. vm_compute. reflexivity. Qed.

Example parse_default_exclusion_list :
  parse_exclusion_list default_exclusion_list
  = [py ".pdf"; py ".jpg"; py ".docx"].
Proof. vm_compute. reflexivity. Qed.

Example main_two_pages :
  main (py "http://ex.test/") default_exclusion_list two_pages 10
  = Some [mkPageRecord (py "http://ex.test/") (py "A") (py "page a");
          mkPageRecord (py "http://ex.test/b") (py "B") (py "page b")].
Proof. vm_compute. reflexivity. Qed.

Example parse_blank_fields :
  parse_exclusion_list (py " .pdf , ,,	.jpg  ") = [py ".pdf"; py ".jpg"].
Proof. vm_compute. reflexivity. Qed.

(** ** String operations meet their meaning *)

Section strings.
Implicit Types s p sub old new : list N.

Lemma startswith_prefix s p : startswith s p = true ↔ p `prefix_of` s.
Proof.
  revert s. induction p as [|x p IH]; intros [|y s]; simpl.
  - split; [intros _; apply prefix_nil | done].
  - split; [intros _; apply prefix_nil | done].
  - split; [done | intros [k Hk]; discriminate Hk].
  - rewrite andb_true_iff, N.eqb_eq, IH. split.
    + intros [-> Hp]. by apply prefix_cons.
    + intros [k Hk]. injection Hk as -> ->. split; [done | by exists k].
Qed.

Lemma str_in_nil sub : str_in sub [] = startswith [] sub.
Proof. simpl. apply orb_false_r. Qed.

Lemma str_in_cons sub c s :
  str_in sub (c :: s) = startswith (c :: s) sub || str_in sub s.
Proof. done. Qed.

Lemma str_in_substring sub s : str_in sub s = true ↔ substring_of sub s.
Proof.
  induction s as [|c s IH]; [rewrite str_in_nil | rewrite str_in_cons].
  - rewrite startswith_prefix. split.
    + intros [k Hk]. exists [], k. done.
    + intros (pre & post & H). symmetry in H.
      apply app_eq_nil in H as [-> H]. apply app_eq_nil in H as [-> _].
      apply prefix_nil.
  - rewrite orb_true_iff, startswith_prefix, IH. split.
    + intros [[k Hk] | (pre & post & H)].
      * exists [], k. done.
      * exists (c :: pre), post. simpl. by rewrite H.
    + intros ([|c' pre] & post & H); simpl in H.
      * left. by exists post.
      * right. injection H as _ H. by exists pre, post.
Qed.

Lemma str_in_hash s : str_in [hash] s = true ↔ hash ∈ s.
Proof.
  rewrite str_in_substring. split.
  - intros (pre & post & ->). set_solver.
  - intros (pre & post & ->)%list_elem_of_split. by exists pre, post.
Qed.

Global Instance substring_of_dec : RelDecision substring_of.
Proof.
  refine (λ sub s, cast_if (decide (str_in sub s = true)));
    abstract (by rewrite <- str_in_substring).
Defined.

Lemma substring_of_length sub s : substring_of sub s → length sub ≤ length s.
Proof. intros (pre & post & ->). rewrite !length_app. lia. Qed.

Lemma replace_from_skip old new s k :
  replace_from old new s k = replace_from old new (drop k s) 0.
Proof.
  revert k. induction s as [|c s IH]; intros [|k]; try done.
  simpl. apply IH.
Qed.

Lemma replace_from_length old s k :
  length (replace_from old [] s k) ≤ length s.
Proof.
  revert k. induction s as [|c s IH]; intros k; [done|].
  cbn [replace_from]. destruct k as [|k].
  - destruct (startswith (c :: s) old); cbn [app length].
    + specialize (IH (length old - 1)). lia.
    + specialize (IH 0). lia.
  - specialize (IH k). cbn [length]. lia.
Qed.

Lemma str_replace_length s old : length (str_replace s old []) ≤ length s.
Proof.
  destruct old as [|x old]; simpl.
  - induction s as [|c s IH]; simpl; lia.
  - apply replace_from_length.
Qed.

Lemma lstrip_length s : length (lstrip s) ≤ length s.
Proof.
  induction s as [|c s IH]; simpl; [done|].
  destruct (isspace c); simpl; lia.
Qed.

Lemma strip_length s : length (strip s) ≤ length s.
Proof.
  unfold strip, rstrip. rewrite length_reverse.
  etrans; [apply lstrip_length|]. rewrite length_reverse.
  apply lstrip_length.
Qed.

Lemma join_cons sep p ps :
  ps ≠ [] → join sep (p :: ps) = p ++ sep ++ join sep ps.
Proof. by destruct ps. Qed.

Lemma join_head sep p ps : p `prefix_of` join sep (p :: ps).
Proof.
  destruct ps as [|q ps]; simpl.
  - done.
  - by eexists.
Qed.

Lemma no_substring_nil old : old ≠ [] → ¬ substring_of old [].
Proof. intros Hold (pre & post & H). destruct pre, old; done. Qed.

(** Deleting [old] cuts [s] at occurrences of [old]; no piece between two
    cuts contains [old]. *)
Lemma replace_from_pieces old s :
  old ≠ [] →
  ∃ pieces, pieces ≠ [] ∧ s = join old pieces ∧
    replace_from old [] s 0 = concat pieces ∧
    Forall (λ p, ¬ substring_of old p) pieces.
Proof.
  intros Hold.
  induction s as [s IH] using (induction_ltof1 _ (@length N)).
  unfold ltof in IH. destruct s as [|c s].
  - exists [[]]. repeat split; try done.
    constructor; [by apply no_substring_nil | done].
  - cbn [replace_from]. destruct (startswith (c :: s) old) eqn:Hsw.
    + apply startswith_prefix in Hsw as [t Ht].
      rewrite replace_from_skip.
      destruct old as [|x old]; [done|].
      simpl in Ht. injection Ht as -> ->.
      cbn [length]. rewrite Nat.sub_succ, Nat.sub_0_r, drop_app_length.
      destruct (IH t) as (ps & Hne & Hj & Hc & Hf).
      { cbn [length]. rewrite length_app. lia. }
      exists ([] :: ps). split; [done|]. split; [|split].
      * rewrite join_cons by done. simpl. by rewrite <- Hj.
      * done.
      * constructor; [by apply no_substring_nil | done].
    + destruct (IH s) as (ps & Hne & Hj & Hc & Hf); [simpl; lia|].
      destruct ps as [|p0 ps]; [done|].
      exists ((c :: p0) :: ps). split; [done|]. split; [|split].
      * destruct ps; simpl in *; by rewrite Hj.
      * simpl in *. by rewrite Hc.
      * apply Forall_cons in Hf as [Hp0 Hf].
        constructor; [|done]. intros ([|c' pre] & post & H); simpl in H.
        -- assert (startswith (c :: s) old = true) as Hsw'; [|congruence].
           apply startswith_prefix. destruct (join_head old p0 ps) as [t Ht].
           exists (post ++ t). rewrite Hj, Ht, app_comm_cons, H.
           by rewrite <- !app_assoc.
        -- injection H as _ H. apply Hp0. by exists pre, post.
Qed.

End strings.

(** ** The matcher returns a common block *)

Section matcher.
Import difflib.
Implicit Types sa sb xs ys : list N.

Lemma aligned_snoc sa sb i j n x :
  aligned sa sb (mkMatch i j n) →
  sa !! (i + n) = Some x → sb !! (j + n) = Some x →
  aligned sa sb (mkMatch i j (S n)).
Proof.
  intros Hal Ha Hb t Ht. simpl in *.
  destruct (decide (t = n)) as [-> | Hne]; [by exists x|].
  apply Hal. simpl. lia.
Qed.

Lemma aligned_cons sa sb i j n x :
  aligned sa sb (mkMatch (S i) (S j) n) →
  sa !! i = Some x → sb !! j = Some x →
  aligned sa sb (mkMatch i j (S n)).
Proof.
  intros Hal Ha Hb [|t] Ht; simpl in *.
  - exists x. by rewrite !Nat.add_0_r.
  - rewrite <- !Nat.add_succ_comm. apply Hal. simpl. lia.
Qed.

Lemma index_fold_ok sb (l : list (nat * N)) (m : gmap N (list nat)) :
  Forall (λ p, sb !! p.1 = Some p.2) l →
  index_ok sb m →
  index_ok sb
    (fold_left
       (λ (b2j : gmap N (list nat)) '(i, elt),
          <[elt := default [] (b2j !! elt) ++ [i]]> b2j) l m).
Proof.
  revert m. induction l as [|[i elt] l IH]; intros m Hl Hm; [done|].
  apply Forall_cons in Hl as [Hi Hl]. simpl in Hi.
  cbn [fold_left]. apply IH; [done|].
  intros x js. rewrite lookup_insert_Some.
  intros [[<- <-] | [_ Hx]]; [|by eapply Hm].
  apply Forall_app. split; [|by constructor].
  destruct (m !! elt) as [js'|] eqn:Hjs'; simpl; [by eapply Hm | done].
Qed.

Lemma chain_b_ok sb : index_ok sb (chain_b sb).
Proof.
  assert (index_ok sb (index_b sb)) as Hidx.
  { apply index_fold_ok; [|done].
    apply Forall_lookup. intros k [i elt].
    rewrite list_lookup_imap. destruct (sb !! k) eqn:Hk; [|done].
    by intros [= <- <-]. }
  unfold chain_b. case_bool_decide; [|done].
  intros x js [Hx _]%map_lookup_filter_Some. by eapply Hidx.
Qed.

Lemma j2lenget_ok sa sb i j j2len :
  row_ok sa sb i j2len →
  let k := j2lenget j2len j in
  k ≤ i ∧ k ≤ j ∧ aligned sa sb (mkMatch (i - k) (j - k) k).
Proof.
  intros Hrow. destruct j as [|j]; simpl.
  { split; [lia|]. split; [lia|]. intros t Ht. simpl in Ht. lia. }
  destruct (j2len !! j) as [k|] eqn:Hk; simpl.
  - by apply Hrow.
  - split; [lia|]. split; [lia|]. intros t Ht. simpl in Ht. lia.
Qed.

Lemma match_row_ok sa sb blo bhi i x j2len js newj2len best :
  sa !! i = Some x →
  Forall (λ j, sb !! j = Some x) js →
  row_ok sa sb i j2len →
  row_ok sa sb (S i) newj2len →
  aligned sa sb best →
  row_ok sa sb (S i) (match_row blo bhi i j2len js newj2len best).1 ∧
  aligned sa sb (match_row blo bhi i j2len js newj2len best).2.
Proof.
  intros Hi Hjs Hrow. revert newj2len best.
  induction Hjs as [|j js Hj Hjs IH]; intros newj2len best Hnew Hbest;
    cbn [match_row]; [done|].
  case_bool_decide; [by apply IH|]. case_bool_decide; [done|].
  destruct (j2lenget_ok sa sb i j j2len Hrow) as (Hki & Hkj & Hal).
  set (k := j2lenget j2len j) in *.
  assert (aligned sa sb (mkMatch (i - k) (j - k) (S k))) as Hal'.
  { apply (aligned_snoc _ _ _ _ _ x); [done| |].
    - by replace (i - k + k) with i by lia.
    - by replace (j - k + k) with j by lia. }
  apply IH.
  - intros j' k'. rewrite lookup_insert_Some.
    intros [[<- <-] | [_ Hj']]; [|by apply Hnew].
    split; [lia|]. split; [lia|].
    by replace (S i - (k + 1)) with (i - k) by lia;
       replace (S j - (k + 1)) with (j - k) by lia;
       replace (k + 1) with (S k) by lia.
  - case_bool_decide; [|done].
    by replace (i + 1 - (k + 1)) with (i - k) by lia;
       replace (j + 1 - (k + 1)) with (j - k) by lia;
       replace (k + 1) with (S k) by lia.
Qed.

Lemma match_rows_ok sa sb b2j blo bhi pre xs j2len best :
  sa = pre ++ xs →
  index_ok sb b2j →
  row_ok sa sb (length pre) j2len →
  aligned sa sb best →
  aligned sa sb (match_rows b2j blo bhi xs (length pre) j2len best).
Proof.
  intros Hsa Hidx. revert pre j2len best Hsa.
  induction xs as [|x xs IH]; intros pre j2len best Hsa Hrow Hbest;
    cbn [match_rows]; [done|].
  destruct (match_row_ok sa sb blo bhi (length pre) x j2len
              (default [] (b2j !! x)) ∅ best) as [Hrow' Hbest']; try done.
  - rewrite Hsa. by apply list_lookup_middle.
  - destruct (b2j !! x) as [js|] eqn:Hjs; simpl; [by eapply Hidx | done].
  - destruct (match_row _ _ _ _ _ _ _) as [newj2len best'].
    replace (S (length pre)) with (length (pre ++ [x]))
      by (rewrite length_app; simpl; lia).
    apply IH.
    + by rewrite <- app_assoc.
    + by rewrite length_app, Nat.add_1_r.
    + done.
Qed.

Lemma extend_left_ok sa sb junk besti bestj bestsize :
  aligned sa sb (mkMatch besti bestj bestsize) →
  aligned sa sb (extend_left sa sb junk besti bestj bestsize).
Proof.
  revert bestj bestsize.
  induction besti as [|i IH]; intros [|j] bestsize Hal; cbn [extend_left];
    try done.
  destruct (sa !! i) as [x|] eqn:Hx; [|done].
  destruct (sb !! j) as [y|] eqn:Hy; [|done].
  destruct (eqb (isbjunk y) junk && (x =? y)%N) eqn:Hcond; [|done].
  apply andb_true_iff in Hcond as [_ ->%N.eqb_eq].
  by apply IH, (aligned_cons _ _ _ _ _ y).
Qed.

Lemma extend_right_ok sa sb junk i j xs ys bestsize :
  xs = drop (i + bestsize) sa →
  ys = drop (j + bestsize) sb →
  aligned sa sb (mkMatch i j bestsize) →
  aligned sa sb (mkMatch i j (extend_right junk xs ys bestsize)).
Proof.
  revert ys bestsize.
  induction xs as [|x xs IH]; intros [|y ys] bestsize Hxs Hys Hal;
    cbn [extend_right]; try done.
  destruct (eqb (isbjunk y) junk && (x =? y)%N) eqn:Hcond; [|done].
  apply andb_true_iff in Hcond as [_ ->%N.eqb_eq].
  assert (sa !! (i + bestsize) = Some y) as Hx.
  { rewrite <- (Nat.add_0_r (i + bestsize)), <- lookup_drop. by rewrite <- Hxs. }
  assert (sb !! (j + bestsize) = Some y) as Hy.
  { rewrite <- (Nat.add_0_r (j + bestsize)), <- lookup_drop. by rewrite <- Hys. }
  apply IH.
  - rewrite (drop_S _ _ _ Hx) in Hxs. injection Hxs as ->.
    by rewrite Nat.add_succ_r.
  - rewrite (drop_S _ _ _ Hy) in Hys. injection Hys as ->.
    by rewrite Nat.add_succ_r.
  - by apply (aligned_snoc _ _ _ _ _ y).
Qed.

Lemma extend_ok sa sb junk m :
  aligned sa sb m → aligned sa sb (extend sa sb junk m).
Proof.
  intros Hal. unfold extend.
  pose proof (extend_left_ok sa sb junk (a m) (b m) (size m)) as Hleft.
  destruct (extend_left _ _ _ _ _ _) as [i j n]. cbn [a b size].
  apply extend_right_ok; try done. apply Hleft. by destruct m.
Qed.

Lemma find_longest_match_aligned sa sb :
  aligned sa sb (find_longest_match sa sb).
Proof.
  unfold find_longest_match. do 2 apply extend_ok.
  apply (match_rows_ok sa sb _ _ _ []); try done.
  - apply chain_b_ok.
  - intros t Ht. simpl in Ht. lia.
Qed.

Lemma aligned_slices sa sb m :
  aligned sa sb m →
  take (size m) (drop (a m) sa) = take (size m) (drop (b m) sb).
Proof.
  intros Hal. apply list_eq. intros t.
  destruct (decide (t < size m)) as [Ht | Ht].
  - rewrite !lookup_take_lt, !lookup_drop by done.
    destruct (Hal t Ht) as (x & -> & ->). done.
  - by rewrite !lookup_take_ge by lia.
Qed.

Lemma substring_of_take_drop s n k : substring_of (take n (drop k s)) s.
Proof.
  exists (take k s), (drop n (drop k s)). by rewrite !take_drop.
Qed.

(** The result of [find_longest_common_substring] is one contiguous run of
    characters that occurs verbatim in both strings. *)
Lemma find_longest_common_substring_common str1 str2 :
  substring_of (find_longest_common_substring str1 str2) str1 ∧
  substring_of (find_longest_common_substring str1 str2) str2.
Proof.
  unfold find_longest_common_substring, slice.
  replace (a (find_longest_match str1 str2) + size (find_longest_match str1 str2)
           - a (find_longest_match str1 str2))
    with (size (find_longest_match str1 str2)) by lia.
  split; [apply substring_of_take_drop|].
  rewrite (aligned_slices str1 str2) by apply find_longest_match_aligned.
  apply substring_of_take_drop.
Qed.

End matcher.

(** ** The cleaner *)

Section cleaner.
Implicit Types patterns added : list (Z * list N).
Implicit Types content cleaned : list N.

Lemma find_longest_common_substring_length str1 str2 :
  length (find_longest_common_substring str1 str2) ≤ length str1.
Proof.
  unfold find_longest_common_substring, slice.
  rewrite length_take, length_drop. lia.
Qed.

Lemma longest_of_snoc patterns p content :
  longest_of (patterns ++ [p]) content =
    let common := find_longest_common_substring p.2 content in
    if bool_decide (len (longest_of patterns content) < len common)%Z
    then common else longest_of patterns content.
Proof. unfold longest_of. rewrite fold_left_app. by destruct p. Qed.

Lemma longest_of_bound patterns content n :
  Forall (λ p, length p.2 ≤ n) patterns →
  length (longest_of patterns content) ≤ n.
Proof.
  induction patterns as [|p patterns IH] using rev_ind; intros Hall.
  - simpl. lia.
  - apply Forall_app in Hall as [Hall Hp%Forall_inv].
    rewrite longest_of_snoc. cbn zeta. case_bool_decide; [|by apply IH].
    etrans; [apply find_longest_common_substring_length | done].
Qed.

(** What one call of the loop does to the store: it appends, at most up to
    [max_patterns] entries, texts no longer than the ones it holds. *)
Lemma strip_loop_store fuel max_patterns patterns cleaned :
  ∃ added,
    (strip_loop fuel max_patterns patterns cleaned).2 = patterns ++ added ∧
    ((len patterns ≤ max_patterns)%Z →
     (len (patterns ++ added) ≤ max_patterns)%Z) ∧
    ∀ n, Forall (λ p, length p.2 ≤ n) patterns →
         Forall (λ p, length p.2 ≤ n) added.
Proof.
  revert patterns cleaned.
  induction fuel as [|fuel IH]; intros patterns cleaned; cbn [strip_loop].
  - exists []. rewrite app_nil_r. by repeat split.
  - cbn zeta. case_bool_decide as Hshort.
    { exists []. rewrite app_nil_r. by repeat split. }
    case_bool_decide as Hroom.
    + edestruct IH as (added & -> & Hmax & Hlen).
      eexists (_ :: added). rewrite <- app_assoc. split; [done|]. split.
      * intros _. rewrite cons_middle, app_assoc. apply Hmax.
        unfold len in *. rewrite length_app. simpl. lia.
      * intros n Hn. constructor.
        -- simpl. by apply longest_of_bound.
        -- apply Hlen, Forall_app. split; [done|].
           constructor; [|done]. simpl. by apply longest_of_bound.
    + apply IH.
Qed.

Lemma strip_loop_length fuel max_patterns patterns cleaned :
  length (strip_loop fuel max_patterns patterns cleaned).1 ≤ length cleaned.
Proof.
  revert patterns cleaned.
  induction fuel as [|fuel IH]; intros patterns cleaned; cbn [strip_loop];
    [done|].
  cbn zeta. case_bool_decide; [done|].
  etrans; [apply IH | apply str_replace_length].
Qed.

Lemma clean_content_store max_patterns patterns content :
  ∃ added,
    (clean_content max_patterns patterns content).2 = patterns ++ added ∧
    ((1 ≤ max_patterns)%Z → (len patterns ≤ max_patterns)%Z →
     (len (patterns ++ added) ≤ max_patterns)%Z) ∧
    (patterns ≠ [] →
     ∀ n, Forall (λ p, length p.2 ≤ n) patterns →
          Forall (λ p, length p.2 ≤ n) added).
Proof.
  unfold clean_content. destruct patterns as [|p patterns].
  - eexists. split; [done|]. split; [|done]. intros. unfold len. simpl. lia.
  - destruct (strip_loop_store 5 max_patterns (p :: patterns) content)
      as (added & Hadd & Hmax & Hlen).
    destruct (strip_loop _ _ _ _) as [cleaned patterns'].
    exists added. simpl in *. auto.
Qed.

Lemma cleaner_run_snoc max_patterns pages content :
  cleaner_run max_patterns (pages ++ [content]) =
    (clean_content max_patterns (cleaner_run max_patterns pages) content).2.
Proof. unfold cleaner_run. by rewrite fold_left_app. Qed.

Lemma cleaner_run_size max_patterns pages :
  (1 ≤ max_patterns)%Z → (len (cleaner_run max_patterns pages) ≤ max_patterns)%Z.
Proof.
  intros Hmax. induction pages as [|content pages IH] using rev_ind.
  - unfold len. simpl. lia.
  - rewrite cleaner_run_snoc.
    destruct (clean_content_store max_patterns
                (cleaner_run max_patterns pages) content)
      as (added & -> & Hsize & _). auto.
Qed.

Lemma cleaner_run_seed_longest max_patterns pages :
  seed_longest (cleaner_run max_patterns pages).
Proof.
  induction pages as [|content pages IH] using rev_ind; [done|].
  rewrite cleaner_run_snoc.
  destruct (cleaner_run max_patterns pages) as [|seed later]; [by simpl|].
  destruct (clean_content_store max_patterns (seed :: later) content)
    as (added & -> & _ & Hlen).
  simpl in *. apply Forall_app. split; [done|].
  apply Hlen; [done|]. by constructor.
Qed.

End cleaner.

(** ** The frontier *)

Section frontier.
Implicit Types base_url new_url : list N.
Implicit Types exclusion_list new_urls queue : list (list N).
Implicit Types seen : gset (list N).

Lemma existsb_str_in exclusion_list new_url :
  existsb (λ exclusion, str_in exclusion new_url) exclusion_list = false ↔
  Forall (λ exclusion, ¬ substring_of exclusion new_url) exclusion_list.
Proof.
  induction exclusion_list as [|e l IH]; simpl.
  - split; [constructor | done].
  - rewrite orb_false_iff, IH, Forall_cons, <- str_in_substring.
    by rewrite not_true_iff_false.
Qed.

(** The test of the link loop says [continue] exactly for the candidates
    that fail admission. *)
Lemma skip_test_admissible base_url seen exclusion_list new_url :
  negb (startswith new_url base_url) || bool_decide (new_url ∈ seen)
  || str_in [hash] new_url
  || existsb (λ exclusion, str_in exclusion new_url) exclusion_list = false
  ↔ admissible base_url seen exclusion_list new_url.
Proof.
  unfold admissible.
  rewrite !orb_false_iff, negb_false_iff, startswith_prefix.
  rewrite bool_decide_eq_false, existsb_str_in.
  rewrite <- not_true_iff_false, str_in_hash. tauto.
Qed.

Global Instance admissible_dec base_url seen exclusion_list new_url :
  Decision (admissible base_url seen exclusion_list new_url).
Proof. unfold admissible. apply _. Defined.

Lemma enqueue_links_filter base_url seen exclusion_list new_urls queue :
  enqueue_links base_url seen exclusion_list new_urls queue =
    queue ++ filter (admissible base_url seen exclusion_list) new_urls.
Proof.
  revert queue. induction new_urls as [|new_url rest IH]; intros queue.
  - simpl. by rewrite app_nil_r.
  - cbn [enqueue_links]. rewrite filter_cons.
    destruct (decide (admissible _ _ _ new_url)) as [Hadm | Hadm].
    + apply skip_test_admissible in Hadm as ->.
      by rewrite IH, <- app_assoc.
    + rewrite <- skip_test_admissible, not_false_iff_true in Hadm.
      rewrite Hadm. apply IH.
Qed.

Lemma initial_inv base_url patterns : frontier_inv (initial base_url patterns).
Proof.
  split; [constructor | split; [constructor | set_solver]].
Qed.

(** What a pass does to the frontier: a URL that is visited or contains
    [#] is dropped; any other is marked visited and fetched. *)
Lemma crawl_iteration_cases base_url exclusion_list r s s' :
  crawl_iteration base_url exclusion_list r s = Some s' →
  ∃ current_url rest, urls_to_crawl s = current_url :: rest ∧
    ((current_url ∈ visited s ∨ hash ∈ current_url) ∧
     s' = mkState (visited s) rest (results s) (common_patterns s) (requests s)
     ∨
     (current_url ∉ visited s) ∧ (hash ∉ current_url) ∧
     visited s' = visited s ∪ {[current_url]} ∧
     requests s' = requests s ++ [current_url]).
Proof.
  unfold crawl_iteration. destruct (urls_to_crawl s) as [|u rest]; [done|].
  intros H. exists u, rest. split; [done|].
  destruct (bool_decide (u ∈ visited s) || str_in [hash] u) eqn:Hskip.
  - left. apply orb_true_iff in Hskip. injection H as <-.
    rewrite bool_decide_eq_true, str_in_hash in Hskip. done.
  - right. apply orb_false_iff in Hskip as [Hv Hh].
    rewrite bool_decide_eq_false in Hv.
    rewrite <- not_true_iff_false, str_in_hash in Hh.
    destruct r as [|st t c l]; [injection H as <-; done|].
    destruct (raise_for_status st); [injection H as <-; done|].
    destruct (clean_content _ _ _). injection H as <-. done.
Qed.

Lemma crawl_iteration_inv base_url exclusion_list r s s' :
  frontier_inv s →
  crawl_iteration base_url exclusion_list r s = Some s' → frontier_inv s'.
Proof.
  intros (Hnd & Hhash & Hvis) (u & rest & Hq & Hcase)%crawl_iteration_cases.
  destruct Hcase as [[_ ->] | (Hv & Hh & Hv' & Hr')]; [done|].
  unfold frontier_inv. rewrite Hv', Hr'. split; [|split].
  - apply NoDup_app. split; [done|]. split; [|apply NoDup_singleton].
    intros x Hx ->%list_elem_of_singleton. by apply Hv, Hvis.
  - apply Forall_app. split; [done|]. by constructor.
  - intros x. rewrite elem_of_union, elem_of_singleton, elem_of_app,
      list_elem_of_singleton, Hvis. done.
Qed.

Lemma crawl_run_inv base_url exclusion_list rs s :
  frontier_inv s → frontier_inv (crawl_run base_url exclusion_list rs s).
Proof.
  revert s. induction rs as [|r rs IH]; intros s Hinv; simpl; [done|].
  destruct (crawl_iteration _ _ r s) as [s'|] eqn:Hstep; [|done].
  eapply IH, crawl_iteration_inv; eauto.
Qed.

(** A URL that is marked visited is not fetched in any later pass. *)
Lemma visited_not_fetched_again base_url exclusion_list rs s u :
  u ∈ visited s →
  ∃ more, requests (crawl_run base_url exclusion_list rs s)
          = requests s ++ more ∧ u ∉ more.
Proof.
  revert s. induction rs as [|r rs IH]; intros s Hu; simpl.
  { exists []. rewrite app_nil_r. split; [done | apply not_elem_of_nil]. }
  destruct (crawl_iteration _ _ r s) as [s'|] eqn:Hstep.
  2:{ exists []. rewrite app_nil_r. split; [done | apply not_elem_of_nil]. }
  apply crawl_iteration_cases in Hstep as (v & rest & Hq & Hcase).
  destruct Hcase as [[_ ->] | (Hv & Hh & Hv' & Hr')].
  - by apply (IH (mkState _ _ _ _ _)).
  - destruct (IH s') as (more & -> & Hmore).
    { rewrite Hv'. by apply elem_of_union_l. }
    exists (v :: more). rewrite Hr', <- app_assoc. split; [done|].
    apply not_elem_of_cons. split; [by intros ->|done].
Qed.

End frontier.

(** ** Properties of the specification *)

Section properties.
Implicit Types patterns : list (Z * list N).
Implicit Types content cleaned base_url : list N.
Implicit Types exclusion_list new_urls : list (list N).

(** C1, evaluated on the code.  The claim is that
    [find_longest_common_substring] returns the longest contiguous common
    substring of its two arguments.  For the pattern ["b" + "a" * 200] and the
    content ["a" * 200] it returns the empty string, although the 200
    characters of the content occur in both: every character of a content of
    200 characters or more that occurs more than [n // 100 + 1] times is left
    out of the matcher's index. *)
Theorem find_longest_common_substring_misses_popular :
  let str1 := py "b" ++ replicate 200 97%N in
  let str2 := replicate 200 97%N in
  find_longest_common_substring str1 str2 = [] ∧
  substring_of str2 str1 ∧ substring_of str2 str2 ∧
  ¬ longest_common_substring
      (find_longest_common_substring str1 str2) str1 str2.
Proof.
  intros str1 str2.
  assert (find_longest_common_substring str1 str2 = []) as Hnone
    by (vm_compute; reflexivity).
  assert (substring_of str2 str1) as H1
    by (exists (py "b"), []; rewrite app_nil_r; reflexivity).
  assert (substring_of str2 str2) as H2
    by (exists [], []; rewrite app_nil_r; reflexivity).
  split; [exact Hnone | split; [exact H1 | split; [exact H2 |]]].
  intros (_ & _ & Hmax). specialize (Hmax str2 H1 H2).
  rewrite Hnone in Hmax. unfold str2 in Hmax.
  rewrite length_replicate in Hmax. cbn [length] in Hmax. lia.
Qed.

(** C2.  On a successfully fetched page (no exception from the fetch or from
    the status check), a candidate link is appended to the
    pending queue if and only if it starts with the base URL, is not in the
    visited set, contains no [#] and contains no string of the exclusion
    list: the queue after the pass is the rest of the queue followed by the
    admissible candidates, in the order of the page. *)
Theorem links_enqueued_iff_admissible base_url exclusion_list s current_url
    rest status_code page_title html_content new_urls :
  urls_to_crawl s = current_url :: rest →
  current_url ∉ visited s →
  hash ∉ current_url →
  raise_for_status status_code = false →
  ∃ s',
    crawl_iteration base_url exclusion_list
      (Response status_code page_title html_content new_urls) s = Some s' ∧
    visited s' = visited s ∪ {[current_url]} ∧
    urls_to_crawl s' =
      rest ++ filter (admissible base_url (visited s') exclusion_list) new_urls.
Proof.
  intros Hq Hv Hh Hok. unfold crawl_iteration. rewrite Hq.
  rewrite <- str_in_hash, not_true_iff_false in Hh.
  rewrite bool_decide_eq_false_2, Hh by done. cbn [orb]. cbn zeta.
  rewrite Hok.
  destruct (clean_content _ _ _) as [cleaned_html patterns'].
  eexists. split; [done|]. split; [done|].
  cbn [urls_to_crawl visited]. apply enqueue_links_filter.
Qed.

Lemma links_enqueued_iff_admissible_witness :
  let base_url := py "http://ex.test/" in
  let s := initial base_url [] in
  let new_urls :=
    [py "http://ex.test/b"; py "http://ex.test/c#frag";
     py "http://other.test/x"; py "http://ex.test/a.pdf"] in
  ∃ s',
    crawl_iteration base_url [py ".pdf"]
      (Response 200 (py "A") (py "page a") new_urls) s = Some s' ∧
    visited s' = visited s ∪ {[base_url]} ∧
    urls_to_crawl s' =
      [] ++ filter (admissible base_url (visited s') [py ".pdf"]) new_urls.
Proof.
  intros base_url s new_urls.
  apply (links_enqueued_iff_admissible base_url [py ".pdf"] s base_url []).
  - reflexivity.
  - apply not_elem_of_empty.
  - intros H%str_in_hash. vm_compute in H. discriminate H.
  - reflexivity.
Defined.

(** C3, as stated, fails: the seed pattern is not recorded with its length.
    For the content ["a"] the store holds [(-1, "a")], not [(1, "a")]. *)
Lemma seed_not_recorded_with_length :
  clean_content 5 [] (py "a") ≠ (py "a", [(len (py "a"), py "a")]).
Proof. vm_compute. discriminate. Qed.

(** C3, amended.  [clean_content] on an empty store returns the input
    unchanged and leaves exactly one pattern in the store, whose text is the
    input, recorded with the negation of its length. *)
Theorem clean_content_seeds max_patterns content :
  clean_content max_patterns [] content =
    (content, [((- len content)%Z, content)]).
Proof. reflexivity. Qed.

(** C4.  One stripping iteration on the store [patterns] and the content
    [cleaned]: when the best match is shorter than 250 characters the loop
    stops and gives back the content and the store as they are; otherwise the
    content is cut at the occurrences of the match, which are all deleted (no
    piece that is kept contains the match), the match is appended to the store
    when the store holds fewer than [max_patterns] entries, and the loop goes
    on with both. *)
Theorem strip_iteration fuel max_patterns patterns cleaned :
  let longest_common := longest_of patterns cleaned in
  if bool_decide (len longest_common < 250)%Z
  then strip_loop (S fuel) max_patterns patterns cleaned = (cleaned, patterns)
  else
    ∃ pieces,
      cleaned = join longest_common pieces ∧
      Forall (λ piece, ¬ substring_of longest_common piece) pieces ∧
      str_replace cleaned longest_common [] = concat pieces ∧
      strip_loop (S fuel) max_patterns patterns cleaned =
        strip_loop fuel max_patterns
          (if bool_decide (len patterns < max_patterns)%Z
           then patterns ++ [((- len longest_common)%Z, longest_common)]
           else patterns)
          (concat pieces).
Proof.
  intros longest_common. cbn [strip_loop]. fold longest_common. cbn zeta.
  case_bool_decide as Hshort; [done|].
  assert (longest_common ≠ []) as Hne.
  { intros E. rewrite E in Hshort. unfold len in Hshort. simpl in Hshort. lia. }
  destruct (replace_from_pieces longest_common cleaned Hne)
    as (pieces & _ & Hjoin & Hrep & Hfree).
  exists pieces.
  assert (str_replace cleaned longest_common [] = concat pieces) as Hrep'.
  { unfold str_replace. by destruct longest_common. }
  by rewrite Hrep'.
Qed.

(** C5.  Within one iteration the patterns are scanned in store order and a
    later pattern's match replaces the current best only when it is strictly
    longer: scanning one more pattern keeps the best so far unless the new
    match is strictly longer; no pattern has a longer match than the result;
    and the result, unless empty, is the match of the first pattern whose
    match has that length (every earlier match is strictly shorter). *)
Theorem longest_of_keeps_earliest patterns content :
  let commons :=
    map (λ p : Z * list N, find_longest_common_substring p.2 content)
      patterns in
  let best := longest_of patterns content in
  (∀ p, longest_of (patterns ++ [p]) content =
        if bool_decide
             (length best
              < length (find_longest_common_substring p.2 content))
        then find_longest_common_substring p.2 content else best) ∧
  Forall (λ common, length common ≤ length best) commons ∧
  (best = [] ∨
   ∃ i, commons !! i = Some best ∧
        ∀ j common, j < i → commons !! j = Some common →
                    length common < length best).
Proof.
  cbn zeta. split.
  { intros p. rewrite longest_of_snoc. cbn zeta. unfold len.
    do 2 case_bool_decide; (done || lia). }
  induction patterns as [|p patterns IH] using rev_ind.
  { split; [constructor | by left]. }
  destruct IH as [Hmax Hfirst].
  rewrite longest_of_snoc, map_app. cbn zeta. cbn [map]. unfold len.
  set (best := longest_of patterns content) in *.
  set (common := find_longest_common_substring p.2 content).
  case_bool_decide as Hlonger.
  - split.
    + apply Forall_app. split.
      * eapply Forall_impl; [exact Hmax|]. intros c Hc. simpl in Hc. lia.
      * constructor; [done | constructor].
    + right. exists (length patterns). split.
      * rewrite lookup_app_r by (rewrite length_map; lia).
        by rewrite length_map, Nat.sub_diag.
      * intros j c Hj Hc.
        rewrite lookup_app_l in Hc by (rewrite length_map; lia).
        rewrite Forall_lookup in Hmax. specialize (Hmax j c Hc).
        simpl in Hmax. lia.
  - split.
    + apply Forall_app. split; [done|]. constructor; [lia | constructor].
    + destruct Hfirst as [Hnil | (i & Hi & Hearlier)]; [by left | right].
      exists i. split.
      * apply lookup_app_l_Some, Hi.
      * intros j c Hj Hc. apply (Hearlier j c Hj).
        apply lookup_lt_Some in Hi.
        by rewrite lookup_app_l in Hc by lia.
Qed.

(** The scenario of C5: a later pattern whose match has 251 characters beats
    an earlier one whose match has 250, and of two matches of 250 characters
    the one of the earlier pattern is kept. *)
Example longest_of_251_beats_250 :
  let content := replicate 300 97%N in
  let p250 := replicate 250 97%N ++ py "x" in
  let q250 := replicate 250 97%N ++ py "y" in
  let p251 := replicate 251 97%N ++ py "z" in
  longest_of [((-251)%Z, p250); ((-252)%Z, p251)] content
    = replicate 251 97%N ∧
  longest_of [((-251)%Z, p250); ((-251)%Z, q250)] content
    = find_longest_common_substring p250 content.
Proof. split; vm_compute; reflexivity. Qed.

(** C6.  In every execution of the crawl loop (the passes made so far against
    any answers of the network), no URL was fetched twice and no fetched URL
    contains [#]; and at the next pass the head of the queue is discarded
    without a fetch when it was fetched before or contains [#], and fetched
    otherwise. *)
Theorem crawl_fetches_once base_url exclusion_list patterns rs :
  let s :=
    crawl_run base_url exclusion_list rs (initial base_url patterns) in
  NoDup (requests s) ∧
  Forall (λ u, hash ∉ u) (requests s) ∧
  match urls_to_crawl s with
  | [] => True
  | current_url :: rest =>
      ∀ r, ∃ s',
        crawl_iteration base_url exclusion_list r s = Some s' ∧
        if decide (current_url ∈ requests s ∨ hash ∈ current_url)
        then requests s' = requests s ∧ urls_to_crawl s' = rest ∧
             results s' = results s ∧ visited s' = visited s ∧
             common_patterns s' = common_patterns s
        else requests s' = requests s ++ [current_url]
  end.
Proof.
  intros s.
  destruct (crawl_run_inv base_url exclusion_list rs _
              (initial_inv base_url patterns)) as (Hnd & Hhash & Hvis).
  fold s in Hnd, Hhash, Hvis. split; [done|]. split; [done|].
  destruct (urls_to_crawl s) as [|u rest] eqn:Hq; [done|].
  intros r. unfold crawl_iteration. rewrite Hq.
  destruct (decide (u ∈ requests s ∨ hash ∈ u)) as [Hskip | Hfetch].
  - rewrite <- Hvis, <- str_in_hash in Hskip.
    assert (bool_decide (u ∈ visited s) || str_in [hash] u = true) as ->.
    { apply orb_true_iff. by rewrite bool_decide_eq_true. }
    eexists. split; [done|]. done.
  - rewrite <- Hvis, <- str_in_hash in Hfetch.
    assert (bool_decide (u ∈ visited s) || str_in [hash] u = false) as ->.
    { apply orb_false_iff. rewrite bool_decide_eq_false.
      rewrite <- not_true_iff_false. tauto. }
    destruct r as [|st t c l]; [by eexists|].
    destruct (raise_for_status st); [by eexists|].
    destruct (clean_content _ _ _). by eexists.
Qed.

(** C7, as stated, fails: the seed is stored whatever [max_patterns] is.
    With [max_patterns = 0] the store holds one pattern after the first
    call. *)
Lemma seed_exceeds_zero_capacity :
  ¬ (len (cleaner_run 0 [py "x"]) ≤ 0)%Z.
Proof. vm_compute. intros H. by apply H. Qed.

(** C7, amended.  When [max_patterns] is at least 1 (the default is 5), the
    number of patterns in the store never exceeds [max_patterns] across any
    sequence of [clean_content] calls; and, whatever [max_patterns] is, a
    call only appends to the store, so the number never decreases. *)
Theorem store_bounded_and_growing max_patterns pages content :
  ((1 ≤ max_patterns)%Z →
   (len (cleaner_run max_patterns pages) ≤ max_patterns)%Z) ∧
  length (cleaner_run max_patterns pages)
    ≤ length (cleaner_run max_patterns (pages ++ [content])).
Proof.
  split; [by apply cleaner_run_size|].
  rewrite cleaner_run_snoc.
  destruct (clean_content_store max_patterns
              (cleaner_run max_patterns pages) content) as (added & -> & _).
  rewrite length_app. lia.
Qed.

Lemma store_bounded_and_growing_witness :
  let pages := [replicate 600 97%N; replicate 250 97%N ++ py "b"] in
  let content := replicate 300 97%N ++ py "b" in
  (1 ≤ 5)%Z ∧
  (len (cleaner_run 5 pages) ≤ 5)%Z ∧
  length (cleaner_run 5 pages) ≤ length (cleaner_run 5 (pages ++ [content])).
Proof.
  intros pages content.
  destruct (store_bounded_and_growing 5 pages content) as [Hbound Hgrows].
  split; [lia|]. split; [apply Hbound; lia | exact Hgrows].
Defined.

(** C8, as stated, fails: the store is not kept in descending order of
    length.  After the pages ["a" * 600], ["a" * 250 + "b"] and
    ["a" * 300 + "b"] it holds texts of 600, 250 and 300 characters, in that
    order. *)
Lemma store_not_descending :
  let pages :=
    [replicate 600 97%N; replicate 250 97%N ++ py "b";
     replicate 300 97%N ++ py "b"] in
  map (λ p : Z * list N, length p.2) (cleaner_run 5 pages) = [600; 250; 300] ∧
  ¬ descending_length (cleaner_run 5 pages).
Proof.
  intros pages.
  assert (map (λ p : Z * list N, length p.2) (cleaner_run 5 pages)
          = [600; 250; 300]) as Hlens by (vm_compute; reflexivity).
  split; [exact Hlens|]. unfold descending_length. intros Hsorted.
  destruct (cleaner_run 5 pages) as [|p1 [|p2 [|p3 [|p4 l]]]];
    try discriminate Hlens.
  injection Hlens as H1 H2 H3.
  apply Sorted_inv in Hsorted as [Hsorted _].
  apply Sorted_inv in Hsorted as [_ Hhd].
  apply HdRel_inv in Hhd. lia.
Qed.

(** C8, amended.  After every [clean_content] call the patterns are in
    insertion order: a call leaves the entries of the store where they are and
    appends the new ones at the end.  The first pattern, the seed, is at least
    as long as every later one; the later ones are in the order in which they
    were found, not in order of length. *)
Theorem store_in_insertion_order max_patterns pages content :
  cleaner_run max_patterns pages
    `prefix_of` cleaner_run max_patterns (pages ++ [content]) ∧
  seed_longest (cleaner_run max_patterns (pages ++ [content])).
Proof.
  split; [|apply cleaner_run_seed_longest].
  rewrite cleaner_run_snoc.
  destruct (clean_content_store max_patterns
              (cleaner_run max_patterns pages) content) as (added & -> & _).
  by exists added.
Qed.

(** C9, as stated, fails for a status that is not 2xx and for which
    [raise_for_status] does not raise: a response with status 300 is processed
    as a page, so a record is appended, its links are enqueued and the
    cleaner is seeded. *)
Lemma status_300_is_processed :
  let base_url := py "http://ex.test/" in
  let r := Response 300 (py "T") (py "text") [py "http://ex.test/b"] in
  let s' := crawl_iteration base_url [] r (initial base_url []) in
  results <$> s' = Some [mkPageRecord base_url (py "T") (py "text")] ∧
  urls_to_crawl <$> s' = Some [py "http://ex.test/b"] ∧
  common_patterns <$> s' = Some [((-4)%Z, py "text")].
Proof. repeat split; vm_compute; reflexivity. Qed.

(** C9, amended.  When the head of the queue is fetched and the fetch fails
    (the request raises a [RequestException], or the status is one for which
    [raise_for_status] raises, 400 to 599), the pass adds no record to the
    results, enqueues nothing, leaves the patterns of the cleaner as they are
    and marks the URL visited; the loop goes on with the rest of the queue,
    and no later pass fetches the URL again. *)
Theorem fetch_failure_is_dead_end base_url exclusion_list s current_url rest r :
  urls_to_crawl s = current_url :: rest →
  current_url ∉ visited s →
  hash ∉ current_url →
  fetch_fails r = true →
  ∃ s',
    crawl_iteration base_url exclusion_list r s = Some s' ∧
    results s' = results s ∧
    urls_to_crawl s' = rest ∧
    current_url ∈ visited s' ∧
    common_patterns s' = common_patterns s ∧
    ∀ rs, ∃ more,
      requests (crawl_run base_url exclusion_list rs s')
        = requests s ++ [current_url] ++ more ∧
      current_url ∉ more.
Proof.
  intros Hq Hv Hh Hfail. unfold crawl_iteration. rewrite Hq.
  rewrite <- str_in_hash, not_true_iff_false in Hh.
  rewrite bool_decide_eq_false_2, Hh by done. cbn [orb]. cbn zeta.
  destruct r as [|status_code t c l]; [|simpl in Hfail; rewrite Hfail].
  all: eexists; split; [done|].
  all: cbn [results urls_to_crawl visited common_patterns].
  all: split; [done|]; split; [done|].
  all: split; [apply elem_of_union_r, elem_of_singleton; done|].
  all: split; [done|]; intros rs.
  all: edestruct (visited_not_fetched_again base_url exclusion_list rs)
         as (more & Hmore & Hfresh);
       [|exists more; rewrite Hmore; cbn [requests];
         by rewrite <- app_assoc].
  all: cbn [visited]; apply elem_of_union_r, elem_of_singleton; done.
Qed.

Lemma fetch_failure_is_dead_end_witness :
  let base_url := py "http://ex.test/" in
  let s := initial base_url [] in
  let r := Response 404 (py "Not Found") (py "no such page")
             [py "http://ex.test/b"] in
  ∃ s',
    crawl_iteration base_url [] r s = Some s' ∧
    results s' = results s ∧
    urls_to_crawl s' = [] ∧
    base_url ∈ visited s' ∧
    common_patterns s' = common_patterns s ∧
    ∀ rs, ∃ more,
      requests (crawl_run base_url [] rs s')
        = requests s ++ [base_url] ++ more ∧
      base_url ∉ more.
Proof.
  intros base_url s r.
  apply (fetch_failure_is_dead_end base_url [] s base_url [] r).
  - reflexivity.
  - apply not_elem_of_empty.
  - intros H%str_in_hash. vm_compute in H. discriminate H.
  - reflexivity.
Defined.

(** C10.  On a store that holds at least one pattern, the string that
    [clean_content] returns is no longer than its input. *)
Theorem clean_content_never_longer max_patterns patterns content :
  patterns ≠ [] →
  length (clean_content max_patterns patterns content).1 ≤ length content.
Proof.
  intros Hne. unfold clean_content.
  destruct patterns as [|p patterns]; [done|].
  pose proof (strip_loop_length 5 max_patterns (p :: patterns) content) as H.
  destruct (strip_loop _ _ _ _) as [cleaned patterns']. cbn [fst] in *.
  etrans; [apply strip_length | exact H].
Qed.

Lemma clean_content_never_longer_witness :
  let patterns := [((-600)%Z, replicate 600 97%N)] in
  let content := py "  " ++ replicate 250 97%N ++ py " b " in
  patterns ≠ [] ∧
  length (clean_content 5 patterns content).1 ≤ length content.
Proof.
  intros patterns content. split; [discriminate|].
  apply (clean_content_never_longer 5 patterns content). discriminate.
Defined.

End properties.

(** ** Trimming and splitting *)

Section trimming.
Implicit Types s field : list N.

Lemma lstrip_split s :
  ∃ ws, s = ws ++ lstrip s ∧ Forall (λ c, isspace c = true) ws.
Proof.
  induction s as [|c s (ws & Hs & Hws)]; [by exists []|].
  cbn [lstrip]. destruct (isspace c) eqn:Hc.
  - exists (c :: ws). split; [by rewrite Hs at 1 | by constructor].
  - by exists [].
Qed.

Lemma lstrip_head s c : head (lstrip s) = Some c → isspace c = false.
Proof.
  induction s as [|c' s IH]; [done|]. cbn [lstrip].
  destruct (isspace c') eqn:Hc'; [done|]. by intros [= <-].
Qed.

Lemma lstrip_last s c : last (lstrip s) = Some c → last s = Some c.
Proof.
  destruct (lstrip_split s) as (ws & Hs & _). intros Hlast.
  rewrite Hs, last_app, Hlast. done.
Qed.

Lemma rstrip_split s :
  ∃ ws, s = rstrip s ++ ws ∧ Forall (λ c, isspace c = true) ws.
Proof.
  unfold rstrip. destruct (lstrip_split (reverse s)) as (ws & Hs & Hws).
  exists (reverse ws). split.
  - rewrite <- reverse_app, <- Hs. by rewrite reverse_involutive.
  - by apply Forall_reverse.
Qed.

Lemma rstrip_last s c : last (rstrip s) = Some c → isspace c = false.
Proof. unfold rstrip. rewrite last_reverse. apply lstrip_head. Qed.

Lemma rstrip_head s c : head (rstrip s) = Some c → head s = Some c.
Proof.
  destruct (rstrip_split s) as (ws & Hs & _). intros Hhead.
  rewrite Hs, head_app, Hhead. done.
Qed.

Lemma strip_no_space_at_ends s : no_space_at_ends (strip s).
Proof.
  unfold strip. split; intros c Hc.
  - by apply rstrip_head, lstrip_head in Hc.
  - by apply rstrip_last in Hc.
Qed.

Lemma strip_substring s : substring_of (strip s) s.
Proof.
  unfold strip. destruct (lstrip_split s) as (l & Hl & _).
  destruct (rstrip_split (lstrip s)) as (r & Hr & _).
  exists l, r. by rewrite <- Hr.
Qed.

Lemma substring_of_trans s1 s2 s3 :
  substring_of s1 s2 → substring_of s2 s3 → substring_of s1 s3.
Proof.
  intros (p1 & q1 & ->) (p2 & q2 & ->).
  exists (p2 ++ p1), (q1 ++ q2). by rewrite <- !app_assoc.
Qed.

Lemma substring_of_elem c sub s : c ∈ sub → substring_of sub s → c ∈ s.
Proof. intros Hc (pre & post & ->). set_solver. Qed.

Lemma split_fields_join sep s :
  s = join [sep] ((split_fields sep s).1 :: (split_fields sep s).2).
Proof.
  induction s as [|c s IH]; [done|]. cbn [split_fields].
  destruct (split_fields sep s) as [field fields].
  destruct (c =? sep)%N eqn:Hc.
  - apply N.eqb_eq in Hc as ->. cbn [fst snd] in *.
    rewrite join_cons by done. by rewrite IH at 1.
  - cbn [fst snd] in *. rewrite IH at 1. by destruct fields.
Qed.

Lemma split_fields_no_sep sep s :
  Forall (λ field, sep ∉ field)
    ((split_fields sep s).1 :: (split_fields sep s).2).
Proof.
  induction s as [|c s IH]; cbn [split_fields].
  - constructor; [apply not_elem_of_nil | constructor].
  - destruct (split_fields sep s) as [field fields].
    cbn [fst snd] in IH. apply Forall_cons in IH as [Hfield Hfields].
    destruct (c =? sep)%N eqn:Hc; cbn [fst snd].
    + constructor; [apply not_elem_of_nil | by constructor].
    + constructor; [|done]. apply N.eqb_neq in Hc.
      rewrite not_elem_of_cons. split; [congruence | done].
Qed.

Lemma join_pieces_substring sep pieces :
  Forall (λ piece, substring_of piece (join sep pieces)) pieces.
Proof.
  induction pieces as [|p ps IH]; [constructor|].
  destruct ps as [|q ps].
  - constructor; [|constructor]. exists [], []. by rewrite app_nil_r.
  - rewrite join_cons by done. constructor.
    + by exists [], (sep ++ join sep (q :: ps)).
    + eapply Forall_impl; [exact IH|]. intros piece (pre & post & ->).
      exists (p ++ sep ++ pre), post. by rewrite <- !app_assoc.
Qed.

(** X1.  Every entry of the exclusion list that the main program builds from
    [--exclusion_list] is a non-empty string without whitespace at its ends
    and without a comma, and it occurs in the argument as it is. *)
Theorem parse_exclusion_list_entries arg :
  Forall
    (λ exclusion,
       exclusion ≠ [] ∧ no_space_at_ends exclusion ∧ (comma ∉ exclusion) ∧
       substring_of exclusion arg)
    (parse_exclusion_list arg).
Proof.
  unfold parse_exclusion_list, str_split.
  pose proof (split_fields_no_sep comma arg) as Hsep.
  pose proof (split_fields_join comma arg) as Hjoin.
  destruct (split_fields comma arg) as [field fields]. cbn [fst snd] in *.
  pose proof (join_pieces_substring [comma] (field :: fields)) as Hsub.
  rewrite <- Hjoin in Hsub.
  apply Forall_fmap, Forall_forall. intros f [Hne Hf]%list_elem_of_filter.
  cbn [compose]. rewrite Forall_forall in Hsep, Hsub.
  split; [done|]. split; [apply strip_no_space_at_ends|]. split.
  - intros Hc. apply (Hsep f Hf).
    eapply substring_of_elem; [exact Hc | apply strip_substring].
  - eapply substring_of_trans; [apply strip_substring | by apply Hsub].
Qed.

End trimming.

(** ** What the cleaner learns and what it removes *)

Section learning.
Implicit Types patterns added later : list (Z * list N).
Implicit Types content cleaned first : list N.

Lemma longest_of_common patterns content :
  substring_of (longest_of patterns content) content ∧
  (longest_of patterns content = [] ∨
   ∃ p, p ∈ patterns ∧ substring_of (longest_of patterns content) p.2).
Proof.
  induction patterns as [|p patterns [IHc IHp]] using rev_ind.
  { split; [by exists [], content | by left]. }
  rewrite longest_of_snoc. cbn zeta. case_bool_decide.
  - destruct (find_longest_common_substring_common p.2 content) as [Hp Hc].
    split; [done|]. right. exists p. split; [|done].
    apply elem_of_app. right. by apply list_elem_of_singleton.
  - split; [done|]. destruct IHp as [Hnil | (q & Hq & Hsub)]; [by left|].
    right. exists q. split; [|done]. apply elem_of_app. by left.
Qed.

Lemma join_length_ge sep (pieces : list (list N)) :
  length (concat pieces) ≤ length (join sep pieces).
Proof.
  induction pieces as [|p [|q ps] IH].
  - done.
  - simpl. by rewrite app_nil_r.
  - rewrite join_cons by done. cbn [concat] in *. rewrite !length_app in *. lia.
Qed.

(** Deleting a string that occurs removes at least one occurrence. *)
Lemma str_replace_removes s old :
  old ≠ [] → substring_of old s →
  length (str_replace s old []) + length old ≤ length s.
Proof.
  intros Hold Hsub.
  destruct (replace_from_pieces old s Hold) as (pieces & Hne & Hjoin & Hrep & Hfree).
  assert (str_replace s old [] = concat pieces) as ->.
  { unfold str_replace. by destruct old. }
  destruct pieces as [|p [|q ps]]; [done| |].
  - apply Forall_inv in Hfree. simpl in Hjoin. by subst.
  - rewrite Hjoin, join_cons by done. cbn [concat].
    pose proof (join_length_ge old (q :: ps)) as Hle. cbn [concat] in Hle.
    rewrite !length_app in *. lia.
Qed.

Lemma replace_from_sublist old s k : replace_from old [] s k `sublist_of` s.
Proof.
  revert k. induction s as [|c s IH]; intros k; [done|].
  cbn [replace_from]. destruct k as [|k]; [|by apply sublist_cons].
  destruct (startswith (c :: s) old); cbn [app].
  - by apply sublist_cons.
  - by apply sublist_skip.
Qed.

Lemma str_replace_sublist s old : str_replace s old [] `sublist_of` s.
Proof.
  destruct old as [|x old]; [|apply replace_from_sublist].
  simpl. induction s as [|c s IH]; [done|]. by apply sublist_skip.
Qed.

Lemma strip_sublist s : strip s `sublist_of` s.
Proof.
  destruct (strip_substring s) as (l & r & Hs). rewrite Hs at 2.
  by apply sublist_inserts_l, sublist_inserts_r.
Qed.

Lemma strip_loop_sublist fuel max_patterns patterns cleaned :
  (strip_loop fuel max_patterns patterns cleaned).1 `sublist_of` cleaned.
Proof.
  revert patterns cleaned.
  induction fuel as [|fuel IH]; intros patterns cleaned; cbn [strip_loop];
    [done|].
  cbn zeta. case_bool_decide; [done|].
  etrans; [apply IH | apply str_replace_sublist].
Qed.

(** The patterns that one run of the loop appends. *)
Lemma strip_loop_added fuel max_patterns patterns cleaned :
  ∃ added,
    (strip_loop fuel max_patterns patterns cleaned).2 = patterns ++ added ∧
    length added ≤ fuel ∧
    ((max_patterns ≤ len patterns)%Z → added = []) ∧
    Forall (λ q, q.1 = (- len q.2)%Z ∧ 250 ≤ length q.2) added ∧
    ∀ t, Forall (λ p, substring_of p.2 t) patterns →
         Forall (λ q, substring_of q.2 t) added.
Proof.
  revert patterns cleaned.
  induction fuel as [|fuel IH]; intros patterns cleaned; cbn [strip_loop].
  { exists []. rewrite app_nil_r. repeat split; by try constructor. }
  cbn zeta. case_bool_decide as Hshort.
  { exists []. rewrite app_nil_r. repeat split; (by try constructor) || simpl; lia. }
  set (m := longest_of patterns cleaned) in *.
  case_bool_decide as Hroom.
  - destruct (IH (patterns ++ [((- len m)%Z, m)])
                (str_replace cleaned m [])) as (added & -> & Hn & _ & Hwf & Hsub).
    exists (((- len m)%Z, m) :: added). rewrite <- app_assoc.
    split; [done|]. split; [simpl; lia|]. split; [lia|]. split.
    + constructor; [|done]. split; [done|]. unfold len in Hshort. simpl. lia.
    + intros t Ht.
      assert (substring_of m t) as Hm.
      { destruct (longest_of_common patterns cleaned) as [_ [Hnil | (p & Hp & Hmp)]].
        - fold m in Hnil. rewrite Hnil. by exists [], t.
        - rewrite Forall_forall in Ht.
          eapply substring_of_trans; [exact Hmp | by apply Ht]. }
      constructor; [done|]. apply Hsub, Forall_app. split; [done|].
      by constructor.
  - destruct (IH patterns (str_replace cleaned m [])) as (added & -> & Hn & Hfull & Hwf & Hsub).
    exists added. split; [done|]. split; [lia|]. by repeat split.
Qed.

(** The loop either stops at once or removes 250 characters or more. *)
Lemma strip_loop_shrinks fuel max_patterns patterns cleaned :
  strip_loop fuel max_patterns patterns cleaned = (cleaned, patterns) ∨
  length (strip_loop fuel max_patterns patterns cleaned).1 + 250
    ≤ length cleaned.
Proof.
  destruct fuel as [|fuel]; [by left|]. cbn [strip_loop]. cbn zeta.
  case_bool_decide as Hshort; [by left|]. right.
  set (m := longest_of patterns cleaned) in *.
  pose proof (strip_loop_length fuel max_patterns
    (if bool_decide (len patterns < max_patterns)%Z
     then patterns ++ [((- len m)%Z, m)] else patterns)
    (str_replace cleaned m [])) as Hlen.
  assert (m ≠ []) as Hne.
  { intros E. rewrite E in Hshort. unfold len in Hshort. simpl in Hshort. lia. }
  pose proof (str_replace_removes cleaned m Hne
                (proj1 (longest_of_common patterns cleaned))) as Hrem.
  unfold len in Hshort. lia.
Qed.

End learning.

Section cleaner_properties.
Implicit Types patterns added later : list (Z * list N).
Implicit Types content cleaned first : list N.

(** A call on a store that starts with the seed [first] keeps the seed in
    front and adds only long blocks of it. *)
Lemma clean_content_blocks max_patterns first later content :
  Forall
    (λ q, q.1 = (- len q.2)%Z ∧ 250 ≤ length q.2 ∧ substring_of q.2 first)
    later →
  ∃ later',
    (clean_content max_patterns (((- len first)%Z, first) :: later) content).2
      = ((- len first)%Z, first) :: later' ∧
    Forall
      (λ q, q.1 = (- len q.2)%Z ∧ 250 ≤ length q.2 ∧ substring_of q.2 first)
      later'.
Proof.
  intros Hlater. cbn [clean_content].
  destruct (strip_loop_added 5 max_patterns
              (((- len first)%Z, first) :: later) content)
    as (added & Hadd & _ & _ & Hwf & Hsub).
  destruct (strip_loop _ _ _ _) as [cleaned patterns']. cbn [snd] in *.
  exists (later ++ added). split; [by rewrite Hadd|].
  apply Forall_app. split; [done|].
  assert (Forall (λ q, substring_of q.2 first) added) as Hsub'.
  { apply Hsub. constructor; [by exists [], []; rewrite app_nil_r|].
    eapply Forall_impl; [exact Hlater|]. by intros p (_ & _ & Hp). }
  rewrite Forall_forall in Hwf, Hsub'.
  apply Forall_forall. intros q Hq. destruct (Hwf q Hq) as [Hneg Hlong].
  split; [done|]. split; [done|]. by apply Hsub'.
Qed.

(** X2.  Whatever pages are cleaned, the store starts with the first page
    ever cleaned, and every later pattern is a block of at least 250
    characters that occurs in that first page; every entry is a text
    together with the negation of its length. *)
Theorem store_holds_blocks_of_first_page max_patterns first pages :
  ∃ later,
    cleaner_run max_patterns (first :: pages)
      = ((- len first)%Z, first) :: later ∧
    Forall
      (λ q, q.1 = (- len q.2)%Z ∧ 250 ≤ length q.2 ∧ substring_of q.2 first)
      later.
Proof.
  induction pages as [|content pages (later & Hrun & Hlater)] using rev_ind.
  { exists []. split; [done | constructor]. }
  rewrite app_comm_cons, cleaner_run_snoc, Hrun.
  by apply clean_content_blocks.
Qed.

(** X3.  One call of [clean_content] on a store that is not empty appends at
    most five patterns, and none at all once the store holds [max_patterns]
    entries or more. *)
Theorem clean_content_learns_at_most_five max_patterns patterns content :
  patterns ≠ [] →
  ∃ added,
    (clean_content max_patterns patterns content).2 = patterns ++ added ∧
    length added ≤ 5 ∧
    ((max_patterns ≤ len patterns)%Z → added = []).
Proof.
  intros Hne. destruct patterns as [|p patterns]; [done|].
  cbn [clean_content].
  destruct (strip_loop_added 5 max_patterns (p :: patterns) content)
    as (added & Hadd & Hn & Hfull & _).
  destruct (strip_loop _ _ _ _) as [cleaned patterns']. by exists added.
Qed.

Lemma clean_content_learns_at_most_five_witness :
  let patterns := [((-600)%Z, replicate 600 97%N)] in
  let content := replicate 250 97%N ++ py "b" in
  patterns ≠ [] ∧
  ∃ added,
    (clean_content 5 patterns content).2 = patterns ++ added ∧
    length added ≤ 5 ∧
    ((5 ≤ len patterns)%Z → added = []).
Proof.
  intros patterns content. split; [discriminate|].
  apply (clean_content_learns_at_most_five 5 patterns content). discriminate.
Defined.



(** X5.  A page of fewer than 250 characters is only trimmed: on a store that
    is not empty, [clean_content] returns [content.strip()] and leaves the
    store as it is. *)
Theorem short_content_only_trimmed max_patterns patterns content :
  patterns ≠ [] →
  length content < 250 →
  clean_content max_patterns patterns content = (strip content, patterns).
Proof.
  intros Hne Hshort. destruct patterns as [|p patterns]; [done|].
  cbn [clean_content].
  destruct (strip_loop_shrinks 5 max_patterns (p :: patterns) content)
    as [-> | Hshrink]; [done | lia].
Qed.

Lemma short_content_only_trimmed_witness :
  let patterns := [((-6)%Z, py "page a")] in
  let content := py " page b " in
  patterns ≠ [] ∧ length content < 250 ∧
  clean_content 5 patterns content = (strip content, patterns).
Proof.
  intros patterns content. split; [discriminate|].
  split; [vm_compute; lia|].
  apply (short_content_only_trimmed 5 patterns content).
  - discriminate.
  - vm_compute. lia.
Defined.

(** X6.  When the first page ever cleaned has fewer than 250 characters, the
    cleaner never learns anything and never strips anything: the store stays
    the single seed, and every later page is only trimmed. *)
Theorem short_first_page_disables_cleaning max_patterns first pages content :
  length first < 250 →
  cleaner_run max_patterns (first :: pages) = [((- len first)%Z, first)] ∧
  clean_content max_patterns (cleaner_run max_patterns (first :: pages)) content
    = (strip content, [((- len first)%Z, first)]).
Proof.
  intros Hshort.
  assert (∀ page,
            clean_content max_patterns [((- len first)%Z, first)] page
            = (strip page, [((- len first)%Z, first)])) as Hidle.
  { intros page. cbn [clean_content strip_loop]. cbn zeta.
    rewrite bool_decide_eq_true_2; [done|].
    assert (length (longest_of [((- len first)%Z, first)] page)
            ≤ length first) as Hbound.
    { apply longest_of_bound. by constructor. }
    unfold len in *. lia. }
  assert (cleaner_run max_patterns (first :: pages)
          = [((- len first)%Z, first)]) as ->; [|by split].
  induction pages as [|page pages IH] using rev_ind; [done|].
  by rewrite app_comm_cons, cleaner_run_snoc, IH, Hidle.
Qed.

Lemma short_first_page_disables_cleaning_witness :
  let first := py "page a" in
  let content := replicate 300 97%N in
  length first < 250 ∧
  cleaner_run 5 (first :: [content; content])
    = [((- len first)%Z, first)] ∧
  clean_content 5 (cleaner_run 5 (first :: [content; content])) content
    = (strip content, [((- len first)%Z, first)]).
Proof.
  intros first content. split; [vm_compute; lia|].
  apply (short_first_page_disables_cleaning 5 first [content; content] content).
  vm_compute. lia.
Defined.

(** X7.  On a store that is not empty, the string that [clean_content]
    returns neither starts nor ends with a whitespace character. *)
Theorem cleaned_content_is_trimmed max_patterns patterns content :
  patterns ≠ [] →
  no_space_at_ends (clean_content max_patterns patterns content).1.
Proof.
  intros Hne. destruct patterns as [|p patterns]; [done|].
  cbn [clean_content]. destruct (strip_loop _ _ _ _) as [cleaned patterns'].
  apply strip_no_space_at_ends.
Qed.

Lemma cleaned_content_is_trimmed_witness :
  let patterns := [((-6)%Z, py "page a")] in
  patterns ≠ [] ∧ no_space_at_ends (clean_content 5 patterns (py " page b ")).1.
Proof.
  intros patterns. split; [discriminate|].
  apply (cleaned_content_is_trimmed 5 patterns (py " page b ")). discriminate.
Defined.

(** X8.  Cleaning only deletes: the characters of the returned string are
    characters of the input, in the same order. *)
Theorem clean_content_only_deletes max_patterns patterns content :
  (clean_content max_patterns patterns content).1 `sublist_of` content.
Proof.
  destruct patterns as [|p patterns]; [done|]. cbn [clean_content].
  pose proof (strip_loop_sublist 5 max_patterns (p :: patterns) content) as H.
  destruct (strip_loop _ _ _ _) as [cleaned patterns']. cbn [fst] in *.
  etrans; [apply strip_sublist | exact H].
Qed.

End cleaner_properties.

(** ** The crawl as a whole *)

Section crawl.
Implicit Types base_url u : list N.
Implicit Types exclusion_list new_urls : list (list N).
Implicit Types patterns : list (Z * list N).

(** The three ways through the body of the loop. *)
Lemma crawl_iteration_spec base_url exclusion_list r s s' :
  crawl_iteration base_url exclusion_list r s = Some s' →
  ∃ u rest, urls_to_crawl s = u :: rest ∧
    ((u ∈ visited s ∨ hash ∈ u) ∧
     s' = mkState (visited s) rest (results s) (common_patterns s) (requests s)
     ∨
     (u ∉ visited s) ∧ (hash ∉ u) ∧ fetch_fails r = true ∧
     s' = mkState (visited s ∪ {[u]}) rest (results s) (common_patterns s)
            (requests s ++ [u])
     ∨
     (u ∉ visited s) ∧ (hash ∉ u) ∧
     ∃ status_code page_title html_content new_urls,
       r = Response status_code page_title html_content new_urls ∧
       raise_for_status status_code = false ∧
       s' = mkState (visited s ∪ {[u]})
              (rest ++ filter (admissible base_url (visited s ∪ {[u]})
                                 exclusion_list) new_urls)
              (results s
                 ++ [mkPageRecord u page_title
                       (clean_content cleaner_max_patterns (common_patterns s)
                          html_content).1])
              (clean_content cleaner_max_patterns (common_patterns s)
                 html_content).2
              (requests s ++ [u])).
Proof.
  unfold crawl_iteration. destruct (urls_to_crawl s) as [|u rest]; [done|].
  intros H. exists u, rest. split; [done|].
  destruct (bool_decide (u ∈ visited s) || str_in [hash] u) eqn:Hskip.
  { left. apply orb_true_iff in Hskip. injection H as <-.
    rewrite bool_decide_eq_true, str_in_hash in Hskip. done. }
  right. apply orb_false_iff in Hskip as [Hv Hh].
  rewrite bool_decide_eq_false in Hv.
  rewrite <- not_true_iff_false, str_in_hash in Hh. cbn zeta in H.
  destruct r as [|st t c l]; [left; by injection H as <-|].
  destruct (raise_for_status st) eqn:Hst; [left; by injection H as <-|].
  right. split; [done|]. split; [done|]. exists st, t, c, l.
  rewrite enqueue_links_filter in H.
  destruct (clean_content _ _ _) as [cleaned_html patterns'].
  by injection H as <-.
Qed.

Lemma in_scope_base base_url exclusion_list :
  in_scope base_url exclusion_list base_url.
Proof. split; [done | by left]. Qed.

Lemma admissible_in_scope base_url seen exclusion_list new_urls :
  Forall (in_scope base_url exclusion_list)
    (filter (admissible base_url seen exclusion_list) new_urls).
Proof.
  apply Forall_forall. intros u [(Hp & _ & Hh & He) _]%list_elem_of_filter.
  split; [done | by right].
Qed.

Lemma initial_crawl_inv base_url exclusion_list patterns :
  crawl_inv base_url exclusion_list (initial base_url patterns).
Proof.
  split; [|split; [constructor | done]].
  constructor; [apply in_scope_base | constructor].
Qed.

Lemma crawl_iteration_crawl_inv base_url exclusion_list r s s' :
  crawl_inv base_url exclusion_list s →
  crawl_iteration base_url exclusion_list r s = Some s' →
  crawl_inv base_url exclusion_list s'.
Proof.
  intros (Hq & Hr & Hres) (u & rest & Hu & Hcase)%crawl_iteration_spec.
  rewrite Hu in Hq. apply Forall_cons in Hq as [Hin Hq].
  destruct Hcase as [[_ ->] | [(_ & _ & _ & ->) | (_ & _ & Hok)]].
  - done.
  - split; [done|]. split.
    + apply Forall_app. split; [done | by constructor].
    + cbn [results requests]. by apply sublist_inserts_r.
  - destruct Hok as (st & t & c & l & _ & _ & ->). split; [|split].
    + apply Forall_app. split; [done | apply admissible_in_scope].
    + apply Forall_app. split; [done | by constructor].
    + cbn [results requests]. rewrite map_app. by apply sublist_app.
Qed.

Lemma crawl_run_crawl_inv base_url exclusion_list rs s :
  crawl_inv base_url exclusion_list s →
  crawl_inv base_url exclusion_list (crawl_run base_url exclusion_list rs s).
Proof.
  revert s. induction rs as [|r rs IH]; intros s Hinv; simpl; [done|].
  destruct (crawl_iteration _ _ r s) as [s'|] eqn:Hstep; [|done].
  eapply IH, crawl_iteration_crawl_inv; eauto.
Qed.

(** A terminating [crawl_loop] returns the results of a run of the loop that
    has emptied the queue. *)
Lemma crawl_loop_run base_url exclusion_list fetch fuel s rows :
  crawl_loop base_url exclusion_list fetch fuel s = Some rows →
  ∃ rs, rows = results (crawl_run base_url exclusion_list rs s) ∧
        urls_to_crawl (crawl_run base_url exclusion_list rs s) = [].
Proof.
  revert s. induction fuel as [|fuel IH]; intros s; cbn [crawl_loop].
  - destruct (urls_to_crawl s) as [|u rest] eqn:Hq; [|done].
    intros [= <-]. by exists [].
  - destruct (urls_to_crawl s) as [|u rest] eqn:Hq.
    { intros [= <-]. by exists []. }
    destruct (crawl_iteration _ _ (fetch u) s) as [s'|] eqn:Hstep.
    + intros (rs & -> & Hdone)%IH. exists (fetch u :: rs).
      cbn [crawl_run]. by rewrite Hstep.
    + unfold crawl_iteration in Hstep. rewrite Hq in Hstep.
      destruct (_ || _), (fetch u) as [|st ? ? ?]; try done;
        cbn zeta in Hstep;
        destruct (raise_for_status st); try done;
        by destruct (clean_content _ _ _).
Qed.

Lemma crawl_iteration_grows base_url exclusion_list r s s' :
  crawl_iteration base_url exclusion_list r s = Some s' →
  results s `prefix_of` results s' ∧ visited s ⊆ visited s' ∧
  common_patterns s `prefix_of` common_patterns s' ∧
  requests s `prefix_of` requests s' ∧
  ((len (common_patterns s) ≤ 5)%Z → (len (common_patterns s') ≤ 5)%Z).
Proof.
  intros (u & rest & Hu & Hcase)%crawl_iteration_spec.
  destruct Hcase as [[_ ->] | [(_ & _ & _ & ->) | (_ & _ & Hok)]];
    cbn [results visited common_patterns requests].
  - done.
  - repeat split; try done; [set_solver | by apply prefix_app_r].
  - destruct Hok as (st & t & c & l & _ & _ & ->).
    cbn [results visited common_patterns requests].
    destruct (clean_content_store cleaner_max_patterns (common_patterns s) c)
      as (added & -> & Hmax & _).
    split; [by apply prefix_app_r|]. split; [set_solver|].
    split; [by apply prefix_app_r|]. split; [by apply prefix_app_r|].
    apply Hmax. unfold cleaner_max_patterns. lia.
Qed.

Lemma crawl_run_grows base_url exclusion_list rs s :
  results s `prefix_of` results (crawl_run base_url exclusion_list rs s) ∧
  visited s ⊆ visited (crawl_run base_url exclusion_list rs s) ∧
  common_patterns s
    `prefix_of` common_patterns (crawl_run base_url exclusion_list rs s) ∧
  requests s `prefix_of` requests (crawl_run base_url exclusion_list rs s) ∧
  ((len (common_patterns s) ≤ 5)%Z →
   (len (common_patterns (crawl_run base_url exclusion_list rs s)) ≤ 5)%Z).
Proof.
  revert s. induction rs as [|r rs IH]; intros s; cbn [crawl_run]; [done|].
  destruct (crawl_iteration _ _ r s) as [s'|] eqn:Hstep; [|done].
  apply crawl_iteration_grows in Hstep as (H1 & H2 & H3 & H4 & H5).
  destruct (IH s') as (H1' & H2' & H3' & H4' & H5').
  split; [by etrans|]. split; [by etrans|]. split; [by etrans|].
  split; [by etrans | auto].
Qed.

(** X9.  The rows that [crawl_website] returns have pairwise distinct URLs;
    each URL starts with the base URL and contains no [#], and each one other
    than the base URL itself contains no string of the exclusion list. *)
Theorem crawl_website_rows base_url exclusion_list patterns fetch fuel rows :
  crawl_website base_url exclusion_list patterns fetch fuel = Some rows →
  NoDup (map url rows) ∧
  Forall
    (λ row,
       base_url `prefix_of` url row ∧ (hash ∉ url row) ∧
       (url row = base_url ∨
        Forall (λ exclusion, ¬ substring_of exclusion (url row))
          exclusion_list))
    rows.
Proof.
  intros (rs & -> & _)%crawl_loop_run.
  destruct (crawl_run_inv base_url exclusion_list rs _
              (initial_inv base_url patterns)) as (Hnd & Hhash & _).
  destruct (crawl_run_crawl_inv base_url exclusion_list rs _
              (initial_crawl_inv base_url exclusion_list patterns))
    as (_ & Hscope & Hsub).
  split; [by eapply sublist_NoDup|].
  rewrite Forall_forall in Hhash, Hscope.
  apply Forall_forall. intros row Hrow.
  assert (url row ∈ requests
            (crawl_run base_url exclusion_list rs
               (initial base_url patterns))) as Hin.
  { eapply sublist_subseteq; [exact Hsub|]. by apply list_elem_of_fmap_2. }
  destruct (Hscope _ Hin) as [Hpre Hexcl]. split; [done|].
  split; [by apply Hhash|]. destruct Hexcl as [-> | [_ He]]; [by left | by right].
Qed.

Lemma crawl_website_rows_witness :
  let base_url := py "http://ex.test/" in
  let rows := [mkPageRecord base_url (py "A") (py "page a");
               mkPageRecord (py "http://ex.test/b") (py "B") (py "page b")] in
  crawl_website base_url [py ".pdf"] [] two_pages 10 = Some rows ∧
  NoDup (map url rows) ∧
  Forall
    (λ row,
       base_url `prefix_of` url row ∧ (hash ∉ url row) ∧
       (url row = base_url ∨
        Forall (λ exclusion, ¬ substring_of exclusion (url row)) [py ".pdf"]))
    rows.
Proof.
  intros base_url rows.
  assert (crawl_website base_url [py ".pdf"] [] two_pages 10 = Some rows)
    as Hrows by (vm_compute; reflexivity).
  split; [exact Hrows|].
  exact (crawl_website_rows base_url [py ".pdf"] [] two_pages 10 rows Hrows).
Defined.

(** X10.  At every moment of every crawl, each URL that waits in the queue
    and each URL that was fetched (with or without success) starts with the
    base URL and, unless it is the base URL itself, contains no [#] and no
    string of the exclusion list; and the URLs of the records are among the
    fetched URLs, in the order of the fetches. *)
Theorem crawl_stays_in_scope base_url exclusion_list patterns rs :
  let s :=
    crawl_run base_url exclusion_list rs (initial base_url patterns) in
  Forall (in_scope base_url exclusion_list) (urls_to_crawl s) ∧
  Forall (in_scope base_url exclusion_list) (requests s) ∧
  map url (results s) `sublist_of` requests s.
Proof.
  apply (crawl_run_crawl_inv base_url exclusion_list rs),
    initial_crawl_inv.
Qed.

(** X11.  A base URL that contains [#] is never fetched: the crawl makes no
    request and returns no row. *)
Theorem base_url_with_hash_is_not_crawled base_url exclusion_list patterns :
  hash ∈ base_url →
  (∀ fetch fuel,
     crawl_website base_url exclusion_list patterns fetch (S fuel) = Some []) ∧
  ∀ rs,
    requests (crawl_run base_url exclusion_list rs (initial base_url patterns))
    = [].
Proof.
  intros Hh.
  assert (∀ r, crawl_iteration base_url exclusion_list r
                 (initial base_url patterns)
               = Some (mkState ∅ [] [] patterns [])) as Hstep.
  { intros r. unfold crawl_iteration, initial. cbn [urls_to_crawl visited].
    apply str_in_hash in Hh. rewrite Hh, orb_true_r. done. }
  split.
  - intros fetch fuel. unfold crawl_website. cbn [crawl_loop].
    cbn [initial urls_to_crawl]. fold (initial base_url patterns).
    rewrite Hstep. by destruct fuel.
  - intros [|r rs]; [done|]. cbn [crawl_run]. rewrite Hstep.
    by destruct rs.
Qed.

Lemma base_url_with_hash_is_not_crawled_witness :
  let base_url := py "http://ex.test/#top" in
  hash ∈ base_url ∧
  (∀ fetch fuel, crawl_website base_url [] [] fetch (S fuel) = Some []) ∧
  ∀ rs, requests (crawl_run base_url [] rs (initial base_url [])) = [].
Proof.
  intros base_url.
  assert (hash ∈ base_url) as Hh by (apply str_in_hash; vm_compute; reflexivity).
  split; [exact Hh|].
  exact (base_url_with_hash_is_not_crawled base_url [] [] Hh).
Defined.

(** X12.  An empty string in the exclusion list rejects every link, since it
    occurs in every URL: the crawl fetches at most the base URL and returns
    at most one record. *)
Theorem empty_exclusion_blocks_all_links base_url exclusion_list patterns rs :
  [] ∈ exclusion_list →
  let s :=
    crawl_run base_url exclusion_list rs (initial base_url patterns) in
  requests s `prefix_of` [base_url] ∧ length (results s) ≤ 1 ∧
  urls_to_crawl s `prefix_of` [base_url].
Proof.
  intros Hempty.
  assert (∀ seen l, filter (admissible base_url seen exclusion_list) l = [])
    as Hnone.
  { intros seen l. induction l as [|v l IH]; [done|].
    rewrite filter_cons, IH. case_decide as Hadm; [|done].
    destruct Hadm as (_ & _ & _ & He). rewrite Forall_forall in He.
    destruct (He [] Hempty). by exists [], v. }
  assert (∀ rs s, urls_to_crawl s = [] →
            crawl_run base_url exclusion_list rs s = s) as Hdone.
  { intros [|r rs'] s Hq; [done|]. cbn [crawl_run].
    unfold crawl_iteration. by rewrite Hq. }
  cbn zeta. destruct rs as [|r rs].
  { cbn [crawl_run initial requests results urls_to_crawl length].
    split; [apply prefix_nil|]. split; [lia | done]. }
  cbn [crawl_run].
  destruct (crawl_iteration _ _ r _) as [s'|] eqn:Hstep.
  2:{ cbn [initial requests results urls_to_crawl length].
      split; [apply prefix_nil|]. split; [lia | done]. }
  apply crawl_iteration_spec in Hstep as (u & rest & [= <- <-] & Hcase).
  cbn [initial visited results common_patterns requests] in Hcase.
  destruct Hcase as [[_ ->] | [(_ & _ & _ & ->) | (_ & _ & Hok)]].
  - rewrite Hdone by done. cbn [requests results urls_to_crawl length].
    split; [apply prefix_nil|]. split; [lia | apply prefix_nil].
  - rewrite Hdone by done. cbn [requests results urls_to_crawl length app].
    split; [done|]. split; [lia | apply prefix_nil].
  - destruct Hok as (st & t & c & l & _ & _ & ->). rewrite Hnone.
    rewrite Hdone by done. cbn [requests results urls_to_crawl length app].
    split; [done|]. split; [lia | apply prefix_nil].
Qed.

Lemma empty_exclusion_blocks_all_links_witness :
  let base_url := py "http://ex.test/" in
  let rs := [two_pages base_url; two_pages (py "http://ex.test/b")] in
  let s := crawl_run base_url [py ".pdf"; []] rs (initial base_url []) in
  [] ∈ [py ".pdf"; []] ∧
  requests s `prefix_of` [base_url] ∧ length (results s) ≤ 1 ∧
  urls_to_crawl s `prefix_of` [base_url].
Proof.
  intros base_url rs s.
  assert ([] ∈ [py ".pdf"; []]) as Hin
    by (apply list_elem_of_further, list_elem_of_here).
  split; [exact Hin|].
  exact (empty_exclusion_blocks_all_links base_url [py ".pdf"; []] [] rs Hin).
Defined.

(** X13.  A crawl only adds: along any run of the loop, from any state, the
    records already appended stay as they are at the front of the results,
    no URL leaves the visited set, the patterns of the cleaner and the list
    of fetched URLs only get longer at the end. *)
Theorem crawl_only_adds base_url exclusion_list rs s :
  results s `prefix_of` results (crawl_run base_url exclusion_list rs s) ∧
  visited s ⊆ visited (crawl_run base_url exclusion_list rs s) ∧
  common_patterns s
    `prefix_of` common_patterns (crawl_run base_url exclusion_list rs s) ∧
  requests s `prefix_of` requests (crawl_run base_url exclusion_list rs s).
Proof.
  destruct (crawl_run_grows base_url exclusion_list rs s)
    as (H1 & H2 & H3 & H4 & _). done.
Qed.

(** X14.  The module-level cleaner of the crawler never holds more than five
    patterns: if it holds at most five when a crawl starts (it is empty when
    the program starts), it holds at most five at every moment of the
    crawl. *)
Theorem crawl_keeps_five_patterns base_url exclusion_list patterns rs :
  (len patterns ≤ 5)%Z →
  (len (common_patterns
          (crawl_run base_url exclusion_list rs (initial base_url patterns)))
   ≤ 5)%Z.
Proof.
  intros Hfive.
  by apply (crawl_run_grows base_url exclusion_list rs
              (initial base_url patterns)).
Qed.

Lemma crawl_keeps_five_patterns_witness :
  let base_url := py "http://ex.test/" in
  let rs := [two_pages base_url; two_pages (py "http://ex.test/b")] in
  (len (@nil (Z * list N)) ≤ 5)%Z ∧
  (len (common_patterns (crawl_run base_url [] rs (initial base_url [])))
   ≤ 5)%Z.
Proof.
  intros base_url rs.
  assert (len (@nil (Z * list N)) ≤ 5)%Z as Hfive by (vm_compute; discriminate).
  split; [exact Hfive|].
  exact (crawl_keeps_five_patterns base_url [] [] rs Hfive).
Defined.

Lemma size_unvisited (site seen : gset (list N)) u :
  u ∈ site → u ∉ seen →
  size (site ∖ seen) = S (size (site ∖ (seen ∪ {[u]}))).
Proof.
  intros Hu Hseen.
  assert (site ∖ seen = {[u]} ∪ site ∖ (seen ∪ {[u]})) as ->.
  { apply set_eq. intros x.
    rewrite elem_of_union, !elem_of_difference, elem_of_union,
      elem_of_singleton.
    destruct (decide (x = u)) as [-> | Hne]; tauto. }
  rewrite size_union, size_singleton; [done|].
  intros x Hx%elem_of_singleton Hx'%elem_of_difference. subst x.
  destruct Hx' as [_ Hx']. apply Hx', elem_of_union_r. by apply elem_of_singleton.
Qed.

Lemma admissible_weaken base_url (seen : gset (list N)) exclusion_list v :
  admissible base_url seen exclusion_list v →
  admissible base_url ∅ exclusion_list v.
Proof.
  intros (Hp & _ & Hh & He). split; [done|].
  split; [apply not_elem_of_empty | done].
Qed.

(** Each pass lowers the bound. *)
Lemma crawl_iteration_passes_left base_url exclusion_list fetch site width s u
    rest :
  closed_site base_url exclusion_list fetch site width →
  urls_to_crawl s = u :: rest →
  Forall (λ v, v ∈ site) (urls_to_crawl s) →
  ∃ s',
    crawl_iteration base_url exclusion_list (fetch u) s = Some s' ∧
    Forall (λ v, v ∈ site) (urls_to_crawl s') ∧
    passes_left site width s' < passes_left site width s.
Proof.
  intros Hsite Hq Hin.
  destruct (crawl_iteration base_url exclusion_list (fetch u) s) as [s'|]
    eqn:Hstep.
  2:{ unfold crawl_iteration in Hstep. rewrite Hq in Hstep.
      destruct (_ || _), (fetch u) as [|st ? ? ?]; try done;
        cbn zeta in Hstep; destruct (raise_for_status st); try done;
        by destruct (clean_content _ _ _). }
  exists s'. split; [done|].
  apply crawl_iteration_spec in Hstep as (u' & rest' & Hq' & Hcase).
  rewrite Hq in Hq'. injection Hq' as <- <-.
  rewrite Hq in Hin. apply Forall_cons in Hin as [Hu Hrest].
  unfold passes_left. rewrite Hq.
  destruct Hcase as [[_ ->] | [(Hv & _ & _ & ->) | (Hv & _ & Hok)]];
    cbn [urls_to_crawl visited length].
  - split; [done | lia].
  - split; [done|]. rewrite (size_unvisited site (visited s) u) by done. lia.
  - destruct Hok as (st & t & c & l & Hfetch & _ & ->).
    cbn [urls_to_crawl visited].
    destruct (Hsite u st t c l Hu Hfetch) as [Hwidth Hlinks].
    split.
    + apply Forall_app. split; [done|]. apply Forall_forall.
      intros v [Hadm Hv']%list_elem_of_filter.
      by eapply Hlinks, admissible_weaken.
    + rewrite (size_unvisited site (visited s) u) by done.
      rewrite length_app.
      pose proof (length_filter
        (admissible base_url (visited s ∪ {[u]}) exclusion_list) l).
      lia.
Qed.

Lemma crawl_pass_handled base_url exclusion_list r s :
  crawl_pass base_url exclusion_list (Handled r) s =
    match crawl_iteration base_url exclusion_list r s with
    | Some s' => Next s'
    | None => Done
    end.
Proof.
  unfold crawl_pass, crawl_iteration.
  destruct (urls_to_crawl s) as [|u rest]; [done|]. by destruct (_ || _).
Qed.

Lemma parsing_site_closed base_url exclusion_list fetch site width :
  parsing_site base_url exclusion_list fetch site width →
  closed_site base_url exclusion_list
    (λ u, match fetch u with Handled r => r | Uncaught => RequestException end)
    site width.
Proof.
  intros Hsite u st t c l Hu Hfetch.
  destruct (Hsite u Hu) as (r & Hr & Hlinks). rewrite Hr in Hfetch.
  by eapply Hlinks.
Qed.

Lemma crawl_loop_exc_returns base_url exclusion_list fetch site width fuel s :
  parsing_site base_url exclusion_list fetch site width →
  Forall (λ v, v ∈ site) (urls_to_crawl s) →
  passes_left site width s ≤ fuel →
  ∃ rows, crawl_loop_exc base_url exclusion_list fetch fuel s = Returns rows.
Proof.
  intros Hsite. revert s.
  induction fuel as [|fuel IH]; intros s Hin Hfuel; cbn [crawl_loop_exc].
  - destruct (urls_to_crawl s) as [|u rest] eqn:Hq; [by eexists|].
    unfold passes_left in Hfuel. rewrite Hq in Hfuel. simpl in Hfuel. lia.
  - destruct (urls_to_crawl s) as [|u rest] eqn:Hq; [by eexists|].
    rewrite <- Hq in Hin.
    destruct (crawl_iteration_passes_left base_url exclusion_list _ site
                width s u rest (parsing_site_closed _ _ _ _ _ Hsite) Hq Hin)
      as (s' & Hstep & Hin' & Hless).
    assert (u ∈ site) as Hu.
    { rewrite Hq in Hin. by apply Forall_inv in Hin. }
    destruct (Hsite u Hu) as (r & Hr & _). rewrite Hr in Hstep.
    rewrite Hr, crawl_pass_handled, Hstep. apply IH; [done | lia].
Qed.

Lemma two_pages_closed_site :
  closed_site (py "http://ex.test/") [py ".pdf"] two_pages
    {[py "http://ex.test/"; py "http://ex.test/b"]} 5.
Proof.
  intros u st t c l Hu Hfetch.
  apply elem_of_union in Hu as [->%elem_of_singleton | ->%elem_of_singleton].
  - vm_compute in Hfetch. injection Hfetch as <- <- <- <-.
    split; [simpl; lia|].
    apply (Forall_forall
             (λ v, admissible (py "http://ex.test/") ∅ [py ".pdf"] v →
                   v ∈ ({[py "http://ex.test/"; py "http://ex.test/b"]}
                        : gset (list N)))).
    repeat (apply Forall_cons; split); [| | | | |apply Forall_nil_2].
    all: intros (Hp & _ & Hh & He).
    all: apply Forall_inv in He; rewrite <- str_in_substring in He.
    all: rewrite <- str_in_hash in Hh; rewrite <- startswith_prefix in Hp.
    + apply elem_of_union_r, elem_of_singleton. vm_compute. reflexivity.
    + exfalso. apply Hh. vm_compute. reflexivity.
    + exfalso. vm_compute in Hp. discriminate Hp.
    + exfalso. apply He. vm_compute. reflexivity.
    + apply elem_of_union_r, elem_of_singleton. vm_compute. reflexivity.
  - vm_compute in Hfetch. injection Hfetch as <- <- <- <-.
    split; [simpl; lia|]. intros v ->%list_elem_of_singleton _.
    apply elem_of_union_l, elem_of_singleton. vm_compute. reflexivity.
Qed.

Lemma two_pages_parsing_site :
  parsing_site (py "http://ex.test/") [py ".pdf"]
    (λ u, Handled (two_pages u))
    {[py "http://ex.test/"; py "http://ex.test/b"]} 5.
Proof.
  intros u Hu. exists (two_pages u). split; [done|].
  intros st t c l Hfetch. by apply (two_pages_closed_site u st t c l).
Qed.

(** X15.  The crawl of a finite site whose pages all parse terminates.  When
    the base URL lies in a finite set of URLs, and every URL of the set is
    fetched and parsed without an exception that the loop does not catch,
    into a page of at most [width] links whose admissible links stay in the
    set, [crawl_website] returns its rows (it neither raises nor runs on)
    within [1 + width * size] passes of the loop. *)
Theorem crawl_terminates_on_finite_site base_url exclusion_list patterns
    (fetch : list N → fetched) (site : gset (list N)) (width fuel : nat) :
  base_url ∈ site →
  parsing_site base_url exclusion_list fetch site width →
  width * size site < fuel →
  ∃ rows,
    crawl_website_exc base_url exclusion_list patterns fetch fuel
    = Returns rows.
Proof.
  intros Hbase Hsite Hfuel. unfold crawl_website_exc.
  apply (crawl_loop_exc_returns _ _ _ site width); [done| |].
  - by constructor.
  - unfold passes_left, initial. cbn [urls_to_crawl visited length].
    rewrite difference_empty_L. lia.
Qed.

Lemma crawl_terminates_on_finite_site_witness :
  let base_url := py "http://ex.test/" in
  let site : gset (list N) := {[base_url; py "http://ex.test/b"]} in
  let fetch := λ u, Handled (two_pages u) in
  base_url ∈ site ∧
  parsing_site base_url [py ".pdf"] fetch site 5 ∧
  5 * size site < 11 ∧
  ∃ rows, crawl_website_exc base_url [py ".pdf"] [] fetch 11 = Returns rows.
Proof.
  intros base_url site fetch.
  assert (base_url ∈ site) as Hbase
    by (apply elem_of_union_l, elem_of_singleton; reflexivity).
  assert (5 * size site < 11) as Hfuel by (vm_compute; lia).
  split; [exact Hbase|]. split; [exact two_pages_parsing_site|].
  split; [exact Hfuel|].
  exact (crawl_terminates_on_finite_site base_url [py ".pdf"] [] fetch
           site 5 11 Hbase two_pages_parsing_site Hfuel).
Defined.

End crawl.

(** ** The matcher without popular characters *)

Section matcher_complete.
Import difflib.
Implicit Types sa sb xs ys : list N.

Lemma index_fold_length (l : list (nat * N)) (m : gmap N (list nat)) x :
  length
    (default []
       (fold_left
          (λ (b2j : gmap N (list nat)) '(i, elt),
             <[elt := default [] (b2j !! elt) ++ [i]]> b2j) l m !! x))
  = length (default [] (m !! x)) + length (filter (λ p, p.2 = x) l).
Proof.
  revert m. induction l as [|[i elt] l IH]; intros m; [simpl; lia|].
  cbn [fold_left]. rewrite IH, filter_cons. cbn [snd].
  destruct (decide (elt = x)) as [-> | Hne].
  - rewrite lookup_insert_eq. simpl. rewrite length_app. simpl. lia.
  - by rewrite lookup_insert_ne.
Qed.

Lemma imap_filter_length (F : nat → N → nat * N) sb x :
  (∀ i y, (F i y).2 = y) →
  length (filter (λ p, p.2 = x) (imap F sb))
  = length (filter (λ y, y = x) sb).
Proof.
  revert F. induction sb as [|y sb IH]; intros F HF; [done|].
  rewrite imap_cons, !filter_cons, HF.
  destruct (decide (y = x)); cbn [length]; rewrite IH; try done;
    intros i z; apply HF.
Qed.

Lemma chain_b_no_popular sb : no_popular sb → chain_b sb = index_b sb.
Proof.
  intros Hpop. unfold chain_b. case_bool_decide as Hlong; [|done].
  destruct Hpop as [Hshort | Hrare]; [lia|].
  apply map_filter_id. intros x js Hjs. cbn beta.
  specialize (Hrare x).
  pose proof (index_fold_length (imap pair sb) ∅ x) as Hlen.
  fold (index_b sb) in Hlen. rewrite Hjs, lookup_empty in Hlen.
  rewrite imap_filter_length in Hlen by done. simpl in Hlen. lia.
Qed.

Lemma index_fold_full (l : list (nat * N)) (m : gmap N (list nat)) :
  let b2j :=
    fold_left
      (λ (b2j : gmap N (list nat)) '(i, elt),
         <[elt := default [] (b2j !! elt) ++ [i]]> b2j) l m in
  (∀ i elt, (i, elt) ∈ l → ∃ js, b2j !! elt = Some js ∧ i ∈ js) ∧
  (∀ x js i, m !! x = Some js → i ∈ js →
             ∃ js', b2j !! x = Some js' ∧ i ∈ js').
Proof.
  revert m. induction l as [|[i0 e0] l IH]; intros m; cbn zeta.
  { split; [by intros i elt Hin%not_elem_of_nil|]. cbn [fold_left]. eauto. }
  cbn [fold_left]. destruct (IH (<[e0 := default [] (m !! e0) ++ [i0]]> m))
    as [IHl IHm]. split.
  - intros i elt [[= -> ->] | Hin]%elem_of_cons; [|by apply IHl].
    eapply IHm; [apply lookup_insert_eq|].
    apply elem_of_app. right. by apply list_elem_of_singleton.
  - intros x js i Hx Hi. destruct (decide (e0 = x)) as [-> | Hne].
    + eapply IHm; [apply lookup_insert_eq|]. rewrite Hx. cbn [default].
      apply elem_of_app. by left.
    + eapply IHm; [|exact Hi]. by rewrite lookup_insert_ne.
Qed.

Lemma index_b_full sb : index_full sb (index_b sb).
Proof.
  intros j x Hj. apply (index_fold_full (imap pair sb) ∅).
  apply list_elem_of_lookup. exists j. by rewrite list_lookup_imap, Hj.
Qed.

Lemma match_row_entries bhi i j2len js newj2len best :
  Forall (λ j, j < bhi) js →
  (∀ j, j ∈ js →
        (match_row 0 bhi i j2len js newj2len best).1 !! j
        = Some (j2lenget j2len j + 1)) ∧
  (∀ j, j ∉ js →
        (match_row 0 bhi i j2len js newj2len best).1 !! j = newj2len !! j) ∧
  size best ≤ size (match_row 0 bhi i j2len js newj2len best).2 ∧
  (∀ j, j ∈ js →
        j2lenget j2len j + 1
        ≤ size (match_row 0 bhi i j2len js newj2len best).2).
Proof.
  intros Hjs. revert newj2len best.
  induction Hjs as [|j0 js Hj0 Hjs IH]; intros newj2len best;
    cbn [match_row].
  { split; [by intros j Hj%not_elem_of_nil|]. split; [done|].
    split; [done|]. by intros j Hj%not_elem_of_nil. }
  rewrite bool_decide_eq_false_2 by lia.
  rewrite (bool_decide_eq_false_2 (bhi ≤ j0)) by lia.
  set (k0 := j2lenget j2len j0 + 1).
  set (best' := if bool_decide (size best < k0)
                then mkMatch (i + 1 - k0) (j0 + 1 - k0) k0 else best).
  assert (size best ≤ size best' ∧ k0 ≤ size best') as [Hb Hk].
  { unfold best'. case_bool_decide; simpl; lia. }
  destruct (IH (<[j0 := k0]> newj2len) best') as (IHin & IHout & IHb & IHk).
  split; [|split; [|split]].
  - intros j Hj. destruct (decide (j ∈ js)) as [Hin | Hout]; [by apply IHin|].
    apply elem_of_cons in Hj as [-> | Hj]; [|done].
    rewrite IHout by done. apply lookup_insert_eq.
  - intros j [Hne Hout]%not_elem_of_cons.
    rewrite IHout by done. by rewrite lookup_insert_ne.
  - lia.
  - intros j [-> | Hj]%elem_of_cons; [fold k0; lia | by apply IHk].
Qed.

Lemma aligned_shorter sa sb i j k k' :
  k' ≤ k → aligned sa sb (mkMatch i j k) → aligned sa sb (mkMatch i j k').
Proof. intros Hk Hal t Ht. apply Hal. simpl in *. lia. Qed.

Lemma aligned_bounds sa sb m :
  aligned sa sb m → 1 ≤ size m →
  a m + size m ≤ length sa ∧ b m + size m ≤ length sb.
Proof.
  intros Hal Hsize. destruct (Hal (size m - 1)) as (x & Ha & Hb); [lia|].
  apply lookup_lt_Some in Ha, Hb. lia.
Qed.

Lemma match_row_full sa sb i x j2len js best :
  sa !! i = Some x →
  Forall (λ j, sb !! j = Some x) js →
  (∀ j, sb !! j = Some x → j ∈ js) →
  row_full sa sb i j2len →
  best_upto sa sb i best →
  row_full sa sb (S i) (match_row 0 (length sb) i j2len js ∅ best).1 ∧
  best_upto sa sb (S i) (match_row 0 (length sb) i j2len js ∅ best).2.
Proof.
  intros Hi Hsound Hfull Hrow Hbest.
  destruct (match_row_entries (length sb) i j2len js ∅ best)
    as (Hin & _ & Hb & Hk).
  { eapply Forall_impl; [exact Hsound|]. intros j Hj.
    by apply lookup_lt_Some in Hj. }
  assert (∀ j k, 1 ≤ k → k ≤ S i → k ≤ S j →
            aligned sa sb (mkMatch (S i - k) (S j - k) k) →
            j ∈ js ∧ k ≤ j2lenget j2len j + 1) as Hblock.
  { intros j k Hk1 Hki Hkj Hal.
    destruct (Hal (k - 1)) as (y & Ha & Hb'); [simpl; lia|]. simpl in Ha, Hb'.
    replace (S i - k + (k - 1)) with i in Ha by lia.
    replace (S j - k + (k - 1)) with j in Hb' by lia.
    assert (y = x) as -> by congruence. split; [by apply Hfull|].
    destruct (decide (k = 1)) as [-> | Hk2]; [lia|].
    destruct j as [|j]; [lia|]. cbn [j2lenget].
    destruct (Hrow j (k - 1)) as (k' & -> & Hk'); try lia.
    - replace (i - (k - 1)) with (S i - k) by lia.
      replace (S j - (k - 1)) with (S (S j) - k) by lia.
      apply (aligned_shorter _ _ _ _ k); [lia | done].
    - simpl. lia. }
  split.
  - intros j k Hk1 Hki Hkj Hal.
    destruct (Hblock j k Hk1 Hki Hkj Hal) as [Hj Hle].
    exists (j2lenget j2len j + 1). split; [by apply Hin | done].
  - intros m Hal Hend.
    destruct (decide (a m + size m ≤ i)) as [Hold | Hnew].
    { etrans; [by apply Hbest | done]. }
    destruct (decide (size m = 0)) as [-> | Hpos]; [lia|].
    destruct (aligned_bounds sa sb m Hal) as [_ Hbm]; [lia|].
    destruct (Hblock (b m + size m - 1) (size m)) as [Hj Hle]; try lia.
    + replace (S i - size m) with (a m) by lia.
      replace (S (b m + size m - 1) - size m) with (b m) by lia.
      by destruct m.
    + etrans; [exact Hle | by apply Hk].
Qed.

Lemma match_rows_full sa sb b2j pre xs j2len best :
  sa = pre ++ xs →
  index_ok sb b2j → index_full sb b2j →
  row_full sa sb (length pre) j2len →
  best_upto sa sb (length pre) best →
  best_upto sa sb (length sa)
    (match_rows b2j 0 (length sb) xs (length pre) j2len best).
Proof.
  intros Hsa Hok Hfull. revert pre j2len best Hsa.
  induction xs as [|x xs IH]; intros pre j2len best Hsa Hrow Hbest;
    cbn [match_rows].
  { rewrite app_nil_r in Hsa. by subst sa. }
  destruct (match_row_full sa sb (length pre) x j2len
              (default [] (b2j !! x)) best) as [Hrow' Hbest']; try done.
  - rewrite Hsa. by apply list_lookup_middle.
  - destruct (b2j !! x) as [js|] eqn:Hjs; simpl; [by eapply Hok | done].
  - intros j Hj. destruct (Hfull j x Hj) as (js & -> & Hin). done.
  - destruct (match_row _ _ _ _ _ _ _) as [newj2len best'].
    replace (S (length pre)) with (length (pre ++ [x]))
      by (rewrite length_app; simpl; lia).
    apply IH.
    + by rewrite <- app_assoc.
    + by rewrite length_app, Nat.add_1_r.
    + by rewrite length_app, Nat.add_1_r.
Qed.

Lemma extend_left_size sa sb junk besti bestj bestsize :
  bestsize ≤ size (extend_left sa sb junk besti bestj bestsize).
Proof.
  revert bestj bestsize.
  induction besti as [|i IH]; intros [|j] bestsize; cbn [extend_left];
    try done.
  destruct (sa !! i) as [x|]; [|done]. destruct (sb !! j) as [y|]; [|done].
  destruct (eqb (isbjunk y) junk && (x =? y)%N); [|done].
  etrans; [|apply IH]. lia.
Qed.

Lemma extend_right_size junk xs ys bestsize :
  bestsize ≤ extend_right junk xs ys bestsize.
Proof.
  revert ys bestsize.
  induction xs as [|x xs IH]; intros [|y ys] bestsize; cbn [extend_right];
    try done.
  destruct (eqb (isbjunk y) junk && (x =? y)%N); [|done].
  etrans; [|apply IH]. lia.
Qed.

Lemma extend_size sa sb junk m : size m ≤ size (extend sa sb junk m).
Proof.
  unfold extend. cbn [size].
  etrans; [apply (extend_left_size sa sb junk (a m) (b m))|].
  apply extend_right_size.
Qed.

(** Without popular characters no common block is longer than the match. *)
Lemma find_longest_match_longest sa sb m :
  no_popular sb → aligned sa sb m →
  size m ≤ size (find_longest_match sa sb).
Proof.
  intros Hpop Hal. unfold find_longest_match.
  rewrite (chain_b_no_popular sb Hpop).
  etrans; [|apply extend_size]. etrans; [|apply extend_size].
  destruct (decide (size m = 0)) as [-> | Hpos]; [lia|].
  apply (match_rows_full sa sb (index_b sb) [] sa ∅ (mkMatch 0 0 0)); try done.
  - rewrite <- (chain_b_no_popular sb Hpop). apply chain_b_ok.
  - apply index_b_full.
  - intros j k Hk1 Hk0. simpl in Hk0. lia.
  - intros m' _ Hend. simpl in *. lia.
  - destruct (aligned_bounds sa sb m Hal) as [Ha _]; [lia | done].
Qed.

Lemma substring_aligned sa sb sub pre post pre' post' :
  sa = pre ++ sub ++ post → sb = pre' ++ sub ++ post' →
  aligned sa sb (mkMatch (length pre) (length pre') (length sub)).
Proof.
  intros -> -> t Ht. simpl in *.
  destruct (lookup_lt_is_Some_2 sub t Ht) as [x Hx]. exists x.
  split.
  - rewrite lookup_app_r by lia.
    replace (length pre + t - length pre) with t by lia.
    by rewrite lookup_app_l.
  - rewrite lookup_app_r by lia.
    replace (length pre' + t - length pre') with t by lia.
    by rewrite lookup_app_l.
Qed.

(** X16.  When no character of the content is popular for the matcher (the
    content has fewer than 200 characters, or no character occurs more than
    [len // 100 + 1] times in it), [find_longest_common_substring] returns a
    longest common substring: it occurs in both strings and no string that
    occurs in both is longer. *)
Theorem short_content_longest_common_substring str1 str2 :
  no_popular str2 →
  longest_common_substring
    (find_longest_common_substring str1 str2) str1 str2.
Proof.
  intros Hpop.
  destruct (find_longest_common_substring_common str1 str2) as [H1 H2].
  split; [done|]. split; [done|].
  intros sub (pre & post & Hsa) (pre' & post' & Hsb).
  pose proof (find_longest_match_longest str1 str2 _ Hpop
                (substring_aligned _ _ _ _ _ _ _ Hsa Hsb)) as Hle.
  cbn [size] in Hle.
  unfold find_longest_common_substring, slice.
  set (m := find_longest_match str1 str2) in *.
  destruct (decide (size m = 0)) as [Hzero | Hpos]; [lia|].
  destruct (aligned_bounds str1 str2 m) as [Ha _];
    [apply find_longest_match_aligned | lia |].
  rewrite length_take, length_drop. lia.
Qed.

Lemma short_content_longest_common_substring_witness :
  let str1 := py "xxhello worldyy" in
  let str2 := py "a hello world b" in
  no_popular str2 ∧
  longest_common_substring
    (find_longest_common_substring str1 str2) str1 str2.
Proof.
  intros str1 str2.
  assert (no_popular str2) as Hpop by (left; vm_compute; lia).
  split; [exact Hpop|].
  exact (short_content_longest_common_substring str1 str2 Hpop).
Defined.

(** X17.  Whatever the two strings are, the string that
    [find_longest_common_substring] returns occurs in both as one contiguous
    run; so it is no longer than either, and it is empty when one of them
    is. *)
Theorem match_occurs_in_both str1 str2 :
  substring_of (find_longest_common_substring str1 str2) str1 ∧
  substring_of (find_longest_common_substring str1 str2) str2 ∧
  length (find_longest_common_substring str1 str2)
    ≤ length str1 `min` length str2 ∧
  (str1 = [] ∨ str2 = [] → find_longest_common_substring str1 str2 = []).
Proof.
  destruct (find_longest_common_substring_common str1 str2) as [H1 H2].
  pose proof (substring_of_length _ _ H1).
  pose proof (substring_of_length _ _ H2).
  split; [done|]. split; [done|]. split; [lia|].
  intros [-> | ->]; apply length_zero_iff_nil; simpl in *; lia.
Qed.

End matcher_complete.

(** ** What a row holds *)

Section rows.
Implicit Types base_url current_url : list N.
Implicit Types exclusion_list rest new_urls : list (list N).



End rows.
